(** * The JVMTI breakpoint registry of ART (runtime/openjdkjvmti/ti_breakpoint.cc)
    and the configuration of the method log (runtime/my_hack.cc)

    A shallow embedding of [Breakpoint::hash],
    [BreakpointUtil::RemoveBreakpointsInClass], [BreakpointUtil::SetBreakpoint]
    and [BreakpointUtil::ClearBreakpoint], and the properties of the registry
    that follow from the code; then of [trimCpy], [init], [get_config] and
    [hack_method_invoke].

    Conventions.  Pointers ([ArtMethod*], [mirror::Class*], [jmethodID]) are
    their addresses, in [Z], with [nullptr] at 0.  [jlocation] is JNI's
    [jlong], a 64-bit signed integer, in [Z]; the one conversion applied to it,
    [static_cast<uint32_t>], is written out.  [env->breakpoints] is a
    [std::unordered_set<Breakpoint>]: a finite set with the value equality of
    [Breakpoint], here a [gset].  The state that the functions mutate is passed
    in and returned. *)

From Stdlib Require Import ZArith Lia Ascii String.
From stdpp Require Import base decidable option numbers countable list gmap fin_sets strings.

Local Open Scope Z_scope.
Set Warnings "-clear-no-such-hyp".

(** ** Scalars *)

(** [jlocation] ([jlong]): a 64-bit two's complement integer. *)
Definition jlocation := Z.

Definition jlong_range (l : jlocation) : Prop := - 2 ^ 63 ≤ l < 2 ^ 63.

(** [uint32_t]. *)
Definition uint32_range (n : Z) : Prop := 0 ≤ n < 2 ^ 32.

(** [static_cast<uint32_t>(x)]: reduction modulo 2^32. *)
Definition static_cast_uint32 (x : Z) : Z := x mod 2 ^ 32.

(** [static_cast<size_t>(x)] on an LP64 target: reduction modulo 2^64. *)
Definition static_cast_size_t (x : Z) : Z := x mod 2 ^ 64.

(** [reinterpret_cast<uintptr_t>(p)] on an LP64 target: the 64 bits of the
    address. *)
Definition reinterpret_cast_uintptr_t (p : Z) : Z := p mod 2 ^ 64.

Definition ArtMethodPtr := Z.
Definition ClassPtr := Z.
Definition jmethodID := Z.
Definition nullptr : Z := 0.

Inductive jvmtiError : Set :=
| OK
| INVALID_METHODID
| INVALID_LOCATION
| DUPLICATE
| NOT_FOUND.

#[global] Instance jvmtiError_eq_dec : EqDecision jvmtiError.
Proof. solve_decision. Defined.

(** ** Breakpoint *)

(** [class Breakpoint]: the members [method_] and [location_] that the
    constructor of line 59 initialises from its two arguments; its [DCHECK] on
    the access flags of the method does not change the value built. *)
Record Breakpoint : Set := mkBreakpoint {
  method_ : ArtMethodPtr;
  location_ : jlocation
}.

Definition GetMethod (b : Breakpoint) : ArtMethodPtr := method_ b.
Definition GetLocation (b : Breakpoint) : jlocation := location_ b.

(** Modelled from the spec: [Breakpoint::operator==], declared in
    ti_breakpoint.h.  Two breakpoint identities are equal iff both components
    are equal, which is the equality of the record. *)
#[global] Instance Breakpoint_eq_dec : EqDecision Breakpoint.
Proof. solve_decision. Defined.

#[global] Instance Breakpoint_countable : Countable Breakpoint.
Proof.
  apply (inj_countable' (λ b, (method_ b, location_ b))
                        (λ p, mkBreakpoint p.1 p.2)).
  by intros [].
Defined.

Section hash.
(** [std::hash<uintptr_t>] and [std::hash<jlocation>], of the C++ standard
    library: any two functions to [size_t]. *)
Variable std_hash_uintptr_t : Z → Z.
Variable std_hash_jlocation : Z → Z.

(** [Breakpoint::hash]: the two hashes joined by [^]. *)
Definition hash (b : Breakpoint) : Z :=
  Z.lxor (std_hash_uintptr_t (reinterpret_cast_uintptr_t (method_ b)))
         (std_hash_jlocation (location_ b)).
End hash.

(** [std::hash] of an integer type no wider than [size_t], as libc++ and
    libstdc++ define it: the value converted to [size_t].  On an LP64 target
    both [uintptr_t] and [jlocation] are such types. *)
Definition std_hash_lp64 (x : Z) : Z := static_cast_size_t x.

(** ** The method directory *)

(** [struct DexFile::CodeItem], the member read here. *)
Record CodeItem : Set := mkCodeItem {
  insns_size_in_code_units_ : Z   (* uint32_t *)
}.

(** What the registry reads of the runtime, under the mutator lock:
    [art::jni::DecodeArtMethod], [ArtMethod::GetCanonicalMethod],
    [ArtMethod::GetCodeItem] (null for a method without bytecode) and
    [ArtMethod::GetDeclaringClass]. *)
Record Runtime : Type := mkRuntime {
  DecodeArtMethod : jmethodID → ArtMethodPtr;
  GetCanonicalMethod : ArtMethodPtr → ArtMethodPtr;
  GetCodeItem : ArtMethodPtr → option CodeItem;
  GetDeclaringClass : ArtMethodPtr → ClassPtr
}.

(** ** std::unordered_set<Breakpoint> *)

Module unordered_set.
(** [insert(x)]: the set after the call and whether [x] was inserted. *)
Definition insert (x : Breakpoint) (s : gset Breakpoint) : gset Breakpoint * bool :=
  if decide (x ∈ s) then (s, false) else ({[x]} ∪ s, true).

(** [find(x)]: the position of the element equal to [x], [None] for [end()]. *)
Definition find (x : Breakpoint) (s : gset Breakpoint) : option Breakpoint :=
  if decide (x ∈ s) then Some x else None.

(** [erase(pos)] at the position of an element. *)
Definition erase (pos : Breakpoint) (s : gset Breakpoint) : gset Breakpoint :=
  s ∖ {[pos]}.

(** The range-for enumeration: every element once, in the order of the
    container. *)
Definition iterate (s : gset Breakpoint) : list Breakpoint := elements s.
End unordered_set.

(** ** ArtJvmTiEnv *)

Record ArtJvmTiEnv : Type := mkEnv {
  breakpoints : gset Breakpoint
}.

(** ** BreakpointUtil

    A call returns [None] where the C++ has no defined result: a null
    [CodeItem*] dereferenced, or [erase] at [end()]. *)
Module BreakpointUtil.

(** First loop of [RemoveBreakpointsInClass]: [to_remove]. *)
Definition collect (rt : Runtime) (klass : ClassPtr) (s : gset Breakpoint)
  : list Breakpoint :=
  filter (λ b, GetDeclaringClass rt (GetMethod b) = klass)
         (unordered_set.iterate s).

(** Second loop: [find], [DCHECK(it != end())], [erase(it)]. *)
Fixpoint erase_all (to_remove : list Breakpoint) (s : gset Breakpoint)
  : option (gset Breakpoint) :=
  match to_remove with
  | [] => Some s
  | b :: rest =>
      match unordered_set.find b s with
      | Some it => erase_all rest (unordered_set.erase it s)
      | None => None
      end
  end.

Definition RemoveBreakpointsInClass (rt : Runtime) (env : ArtJvmTiEnv)
    (klass : ClassPtr) : option ArtJvmTiEnv :=
  let to_remove := collect rt klass (breakpoints env) in
  match erase_all to_remove (breakpoints env) with
  | Some s => Some (mkEnv s)
  | None => None
  end.

Definition SetBreakpoint (rt : Runtime) (env : ArtJvmTiEnv)
    (method : jmethodID) (location : jlocation)
  : option (jvmtiError * ArtJvmTiEnv) :=
  if decide (method = nullptr) then Some (INVALID_METHODID, env)
  else
    let art_method := GetCanonicalMethod rt (DecodeArtMethod rt method) in
    if decide (location < 0) then Some (INVALID_LOCATION, env)
    else
      match GetCodeItem rt art_method with
      | None => None
      | Some code_item =>
          if decide (insns_size_in_code_units_ code_item
                       ≤ static_cast_uint32 location)
          then Some (INVALID_LOCATION, env)
          else
            let res_pair :=
              unordered_set.insert (mkBreakpoint art_method location)
                                   (breakpoints env) in
            if negb res_pair.2
            then Some (DUPLICATE, mkEnv res_pair.1)
            else Some (OK, mkEnv res_pair.1)
      end.

Definition ClearBreakpoint (rt : Runtime) (env : ArtJvmTiEnv)
    (method : jmethodID) (location : jlocation)
  : option (jvmtiError * ArtJvmTiEnv) :=
  if decide (method = nullptr) then Some (INVALID_METHODID, env)
  else
    let pos :=
      unordered_set.find
        (mkBreakpoint (GetCanonicalMethod rt (DecodeArtMethod rt method))
                      location)
        (breakpoints env) in
    match pos with
    | None => Some (NOT_FOUND, env)
    | Some it => Some (OK, mkEnv (unordered_set.erase it (breakpoints env)))
    end.

End BreakpointUtil.

(** ** A small runtime to evaluate on

    Two classes, at 0x7000 and 0x7100.  Class 0x7000 declares the methods at
    0x1000 (12 code units) and 0x1040 (one code unit); class 0x7100 declares
    the method at 0x2000 (8 code units), the native method at 0x2040 (no code
    item) and, at 0x2080, a copied default method whose canonical method is
    the one at 0x1000. *)
Definition rt0 : Runtime := {|
  DecodeArtMethod := λ id, id;
  GetCanonicalMethod := λ m, if decide (m = 0x2080) then 0x1000 else m;
  GetCodeItem := λ m,
    if decide (m = 0x1000) then Some (mkCodeItem 12)
    else if decide (m = 0x1040) then Some (mkCodeItem 1)
    else if decide (m = 0x2000) then Some (mkCodeItem 8)
    else None;
  GetDeclaringClass := λ m,
    if decide (m = 0x1000) then 0x7000
    else if decide (m = 0x1040) then 0x7000
    else 0x7100
|}.

(** The empty registry. *)
Definition env0 : ArtJvmTiEnv := mkEnv ∅.

(** The registry with the one breakpoint (0x1000, 0). *)
Definition env1 : ArtJvmTiEnv := mkEnv {[ mkBreakpoint 0x1000 0 ]}.

(** The registry with breakpoints in the methods of both classes. *)
Definition env3 : ArtJvmTiEnv :=
  mkEnv {[ mkBreakpoint 0x1000 5; mkBreakpoint 0x2000 3; mkBreakpoint 0x1040 0 ]}.

Import BreakpointUtil.

(** Modelled from the spec: [Contains(method_ref, location)], the read-only
    lookup of the execution dispatch, which ti_breakpoint.cc does not define:
    the reference is resolved to its canonical method as in [SetBreakpoint]
    and the identity is looked up in the set. *)
Definition Contains (rt : Runtime) (env : ArtJvmTiEnv)
    (method : jmethodID) (location : jlocation) : bool :=
  match unordered_set.find
          (mkBreakpoint (GetCanonicalMethod rt (DecodeArtMethod rt method))
                        location)
          (breakpoints env) with
  | Some _ => true
  | None => false
  end.

(** The identity that [SetBreakpoint] and [ClearBreakpoint] build from their
    arguments. *)
Definition identity (rt : Runtime) (method : jmethodID) (location : jlocation)
  : Breakpoint :=
  mkBreakpoint (GetCanonicalMethod rt (DecodeArtMethod rt method)) location.

(** The test of lines 86-87 passed: the canonical method has a code item and
    the location is not rejected. *)
Definition location_accepted (rt : Runtime) (b : Breakpoint) : Prop :=
  ∃ code_item, GetCodeItem rt (method_ b) = Some code_item
    ∧ 0 ≤ location_ b
    ∧ static_cast_uint32 (location_ b) < insns_size_in_code_units_ code_item.

(** The states of one environment: from the empty registry, any sequence of
    calls that return, against a runtime that does not change. *)
Inductive reachable (rt : Runtime) : ArtJvmTiEnv → Prop :=
| reachable_init : reachable rt (mkEnv ∅)
| reachable_set env method location err env' :
    reachable rt env →
    SetBreakpoint rt env method location = Some (err, env') →
    reachable rt env'
| reachable_clear env method location err env' :
    reachable rt env →
    ClearBreakpoint rt env method location = Some (err, env') →
    reachable rt env'
| reachable_remove env klass env' :
    reachable rt env →
    RemoveBreakpointsInClass rt env klass = Some env' →
    reachable rt env'.

(** * The configuration of the method log (runtime/my_hack.cc)

    Characters are [ascii]; an array of [char] is the list of its elements,
    and a string in memory ends at its first NUL.  A call returns [None] where
    the C has no defined result: a write past the end of the destination
    array, or a read that finds no NUL in the array.  The log lines that
    [init] prints are not part of the state and are left out. *)
Module my_hack.

Definition NUL : ascii := "000"%char.
Definition LF : ascii := "010"%char.

(** The string at the start of the array [mem]: the characters before the
    first NUL. *)
Fixpoint c_str (mem : list ascii) : option (list ascii) :=
  match mem with
  | [] => None
  | c :: mem' =>
      if decide (c = NUL) then Some []
      else match c_str mem' with
           | Some s => Some (c :: s)
           | None => None
           end
  end.

(** The characters of the string in a buffer that [fgets] filled: it wrote a
    NUL behind them. *)
Fixpoint until_NUL (buf : list ascii) : list ascii :=
  match buf with
  | [] => []
  | c :: buf' => if decide (c = NUL) then [] else c :: until_NUL buf'
  end.

(** [struct Config]. *)
Record Config : Set := mkConfig {
  smethodlogUid : Z;
  sUseDexDump : bool;
  sPkgName : list ascii;        (* char [256] *)
  Config_hackDir : list ascii   (* char [256] *)
}.

(** [static const char *hackDir]. *)
Definition hackDir : string := "/data/local/tmp/hack".

(** [static Config s_cfg], zero-initialised. *)
Definition s_cfg : Config :=
  mkConfig 0 false (replicate 256 NUL) (replicate 256 NUL).

(** [strcpy(dest, src)] for a string [src] given by its characters. *)
Definition strcpy (dest : list ascii) (src : list ascii) : option (list ascii) :=
  if decide (S (length src) ≤ length dest)%nat
  then Some (src ++ NUL :: drop (S (length src)) dest)
  else None.

(** [fgets(buf, size, f)]: at most [size - 1] characters, up to and with the
    first newline; [None] for [NULL], at the end of the file.  The result is
    the characters stored, before the NUL that closes them, and the rest of
    the file. *)
Fixpoint fgets_read (room : nat) (f : list ascii) : list ascii * list ascii :=
  match room, f with
  | O, _ => ([], f)
  | S _, [] => ([], [])
  | S room', c :: f' =>
      if decide (c = LF) then ([c], f')
      else let r := fgets_read room' f' in (c :: r.1, r.2)
  end.

Definition fgets (size : nat) (f : list ascii)
  : option (list ascii * list ascii) :=
  match f with
  | [] => None
  | _ :: _ => Some (fgets_read (size - 1) f)
  end.

(** [strchr(s, c)] followed by [*p = 0]: the string before the first [c] and
    the string behind it; [None] for [NULL]. *)
Fixpoint strchr (s : list ascii) (c : ascii)
  : option (list ascii * list ascii) :=
  match s with
  | [] => None
  | x :: s' =>
      if decide (x = c) then Some ([], s')
      else match strchr s' c with
           | Some kv => Some (x :: kv.1, kv.2)
           | None => None
           end
  end.

(** [strcmp(key, lit) == 0]. *)
Definition strcmp_is_0 (key : list ascii) (lit : string) : bool :=
  bool_decide (key = list_ascii_of_string lit).

(** [(int)x] for a [uid_t]: the 32 bits read as a signed integer. *)
Definition static_cast_int (x : Z) : Z := (x + 2 ^ 31) mod 2 ^ 32 - 2 ^ 31.

Section libc.
(** [isspace] and [atoi] of the C library; [atoi] is given the string it
    reads. *)
Variable isspace : ascii → bool.
Variable atoi : list ascii → Z.

(** The loop of [trimCpy]: [dest] is the destination array, [q] the offset of
    the write pointer in it, [p] the memory from the read pointer on. *)
Fixpoint trimCpy_loop (dest : list ascii) (q : nat) (p : list ascii)
  : option (list ascii) :=
  match p with
  | [] => None
  | c :: p' =>
      if decide (c = NUL) then Some dest
      else if isspace c then trimCpy_loop dest q p'
      else if decide (q < length dest)%nat
           then trimCpy_loop (<[q:=c]> dest) (S q) p'
           else None
  end.

(** [trimCpy(dest, src)]: the destination array after the call. *)
Definition trimCpy (dest src : list ascii) : option (list ascii) :=
  trimCpy_loop dest 0 src.

(** What [trimCpy] copies: the characters of the source string that are not
    white space. *)
Definition trimmed (src : list ascii) : list ascii :=
  filter (λ c, isspace c = false) (until_NUL src).

(** The body of the loop of [init], for the buffer [buf] that [fgets] filled;
    [suid] is what the array [suid] holds when its block is entered. *)
Definition init_line (suid : list ascii) (buf : list ascii) (cfg : Config)
  : option Config :=
  if decide (hd NUL buf = "#"%char) then Some cfg
  else
    match strchr (until_NUL buf) "="%char with
    | None => Some cfg
    | Some (key, val) =>
        let cfg1 :=
          if strcmp_is_0 key "useDexDump"
          then mkConfig (smethodlogUid cfg)
                        (negb (bool_decide (hd NUL val = "0"%char)))
                        (sPkgName cfg) (Config_hackDir cfg)
          else cfg in
        let cfg2 :=
          if strcmp_is_0 key "methodLogUid"
          then match trimCpy suid (val ++ [NUL]) with
               | Some suid' =>
                   match c_str suid' with
                   | Some s => Some (mkConfig (atoi s) (sUseDexDump cfg1)
                                       (sPkgName cfg1) (Config_hackDir cfg1))
                   | None => None
                   end
               | None => None
               end
          else Some cfg1 in
        match cfg2 with
        | Some cfg2 =>
            if strcmp_is_0 key "pkgName"
            then match trimCpy (sPkgName cfg2) (val ++ [NUL]) with
                 | Some name => Some (mkConfig (smethodlogUid cfg2)
                                        (sUseDexDump cfg2) name
                                        (Config_hackDir cfg2))
                 | None => None
                 end
            else Some cfg2
        | None => None
        end
    end.

(** The [while (fgets(buf, sizeof(buf), f) != NULL)] loop, [sizeof(buf)]
    being 500.  [stack i] is the content of the uninitialised array [suid] in
    the [i]-th iteration, cut or filled to its 300 elements.  Every iteration
    takes at least one character of the file, so [fuel] above the length of
    the file is never used up. *)
Fixpoint init_loop (stack : nat → list ascii) (fuel i : nat)
    (f : list ascii) (cfg : Config) : option Config :=
  match fgets 500 f with
  | None => Some cfg
  | Some (buf, f') =>
      match fuel with
      | O => None
      | S fuel' =>
          match init_line (resize 300 NUL (stack i)) buf cfg with
          | Some cfg' => init_loop stack fuel' (S i) f' cfg'
          | None => None
          end
      end
  end.

(** [init]: [fopen path] is the content of the file at [path], [None] when it
    cannot be opened.  The result is [s_cfg] after the call. *)
Definition init (fopen : string → option (list ascii))
    (stack : nat → list ascii) : option Config :=
  let cfgPath := (hackDir ++ "/cfg.txt")%string in
  match strcpy (Config_hackDir s_cfg) (list_ascii_of_string hackDir) with
  | None => None
  | Some dir =>
      let cfg := mkConfig (-1) (sUseDexDump s_cfg) (sPkgName s_cfg) dir in
      match fopen cfgPath with
      | None => Some cfg
      | Some f => init_loop stack (length f) 0 f cfg
      end
  end.

(** [get_config]. *)
Definition get_config (cfg : Config) : Config := cfg.

(** [hack_method_invoke(m)]: the line logged under the tag "method_traces",
    [None] when the function returns at line 99.  [getuid] is the user
    identifier of the process, a [uid_t] of 32 bits; the three strings are
    [m->GetName()], [m->GetSignature().ToString()] and
    [m->GetDeclaringClassDescriptor()]. *)
Definition hack_method_invoke (cfg : Config) (getuid : Z)
    (name sig clsDesc : string) : option string :=
  let cfg := get_config cfg in
  if decide (smethodlogUid cfg ≠ static_cast_int getuid) then None
  else Some (clsDesc ++ "->" ++ name ++ sig)%string.

End libc.

(** [isspace] in the C locale: the space and the characters 9 to 13. *)
Definition isspace_C (c : ascii) : bool :=
  bool_decide (c = " "%char)
  || bool_decide (9 ≤ nat_of_ascii c ≤ 13)%nat.

(** A decimal [atoi] to evaluate with: leading white space, an optional sign,
    then the digits up to the first other character. *)
Definition digit_of (c : ascii) : option Z :=
  let n := nat_of_ascii c in
  if decide (48 ≤ n ≤ 57)%nat then Some (Z.of_nat n - 48) else None.

Fixpoint atoi_digits (acc : Z) (s : list ascii) : Z :=
  match s with
  | [] => acc
  | c :: s' => match digit_of c with
               | Some d => atoi_digits (10 * acc + d) s'
               | None => acc
               end
  end.

Fixpoint atoi_C (s : list ascii) : Z :=
  match s with
  | [] => 0
  | c :: s' =>
      if isspace_C c then atoi_C s'
      else if decide (c = "-"%char) then - atoi_digits 0 s'
      else if decide (c = "+"%char) then atoi_digits 0 s'
      else atoi_digits 0 s
  end.

End my_hack.

Import my_hack.

(** ** Files to evaluate on *)

(** A first line of 499 characters, '#' and 498 times 'x', without its
    newline. *)
Definition long_comment : list ascii := "#"%char :: replicate 498 "x"%char.

(** A configuration file. *)
Definition cfg_txt : list ascii :=
  list_ascii_of_string "# method log" ++ [LF]
  ++ list_ascii_of_string "useDexDump=1" ++ [LF]
  ++ list_ascii_of_string "methodLogUid= 10123" ++ [LF]
  ++ list_ascii_of_string "pkgName=com.example.app" ++ [LF].

(** * Properties *)

(** ** The container *)

Lemma insert_fresh x s :
  x ∉ s → unordered_set.insert x s = ({[x]} ∪ s, true).
Proof. intros Hx. unfold unordered_set.insert. by rewrite decide_False. Qed.

Lemma insert_present x s :
  x ∈ s → unordered_set.insert x s = (s, false).
Proof. intros Hx. unfold unordered_set.insert. by rewrite decide_True. Qed.

Lemma find_Some x s it :
  unordered_set.find x s = Some it ↔ x ∈ s ∧ it = x.
Proof.
  unfold unordered_set.find. case_decide; split.
  - by intros [= <-].
  - by intros [_ ->].
  - done.
  - by intros [? _].
Qed.

Lemma find_None x s : unordered_set.find x s = None ↔ x ∉ s.
Proof. unfold unordered_set.find. by case_decide. Qed.

Lemma find_present x s : x ∈ s → unordered_set.find x s = Some x.
Proof. intros Hx. by apply find_Some. Qed.

Lemma elem_of_erase x pos s :
  x ∈ unordered_set.erase pos s ↔ x ∈ s ∧ x ≠ pos.
Proof. unfold unordered_set.erase. set_solver. Qed.

Lemma erase_insert_fresh x s :
  x ∉ s → unordered_set.erase x ({[x]} ∪ s) = s.
Proof. intros Hx. unfold unordered_set.erase. set_solver. Qed.

Lemma size_erase x s :
  x ∈ s → S (size (unordered_set.erase x s)) = size s.
Proof.
  intros Hx. unfold unordered_set.erase.
  rewrite size_difference by set_solver. rewrite size_singleton.
  assert (size s ≠ 0%nat) by (apply size_non_empty_iff; set_solver).
  lia.
Qed.

Lemma iterate_NoDup s : NoDup (unordered_set.iterate s).
Proof. apply NoDup_elements. Qed.

Lemma elem_of_iterate x s : x ∈ unordered_set.iterate s ↔ x ∈ s.
Proof. apply elem_of_elements. Qed.

(** ** The two loops of RemoveBreakpointsInClass *)

Lemma collect_NoDup rt klass s : NoDup (collect rt klass s).
Proof. apply NoDup_filter, iterate_NoDup. Qed.

Lemma elem_of_collect rt klass s b :
  b ∈ collect rt klass s ↔ b ∈ s ∧ GetDeclaringClass rt (method_ b) = klass.
Proof.
  unfold collect, GetMethod. rewrite list_elem_of_filter, elem_of_iterate.
  tauto.
Qed.

Lemma erase_all_app pre post s :
  erase_all (pre ++ post) s
  = match erase_all pre s with
    | Some cur => erase_all post cur
    | None => None
    end.
Proof.
  revert s. induction pre as [|b pre IH]; intros s; simpl; [done|].
  destruct (unordered_set.find b s); [apply IH | done].
Qed.

(** Erasing a duplicate-free list of present elements goes through and
    leaves the difference. *)
Lemma erase_all_present to_remove s :
  NoDup to_remove →
  (∀ b, b ∈ to_remove → b ∈ s) →
  erase_all to_remove s = Some (s ∖ list_to_set to_remove).
Proof.
  revert s. induction to_remove as [|b rest IH]; intros s Hnd Hin; simpl.
  - f_equal. set_solver.
  - apply NoDup_cons in Hnd as [Hb Hnd].
    rewrite find_present by (apply Hin; left).
    rewrite IH; [| done |].
    + f_equal. unfold unordered_set.erase. set_solver.
    + intros x Hx. apply elem_of_erase. split.
      * apply Hin. by right.
      * intros ->. done.
Qed.

Lemma erase_all_collect rt klass s :
  erase_all (collect rt klass s) s
  = Some (s ∖ list_to_set (collect rt klass s)).
Proof.
  apply erase_all_present; [apply collect_NoDup|].
  intros b Hb. by apply elem_of_collect in Hb as [? _].
Qed.

Lemma RemoveBreakpointsInClass_returns rt env klass :
  RemoveBreakpointsInClass rt env klass
  = Some (mkEnv (breakpoints env
                 ∖ list_to_set (collect rt klass (breakpoints env)))).
Proof.
  unfold RemoveBreakpointsInClass. by rewrite erase_all_collect.
Qed.

(** ** SetBreakpoint and ClearBreakpoint, case by case *)

Section calls.
Context (rt : Runtime) (env : ArtJvmTiEnv).
Context (method : jmethodID) (location : jlocation).

Lemma SetBreakpoint_null :
  method = nullptr →
  SetBreakpoint rt env method location = Some (INVALID_METHODID, env).
Proof. intros Hm. unfold SetBreakpoint. by rewrite decide_True. Qed.

Lemma SetBreakpoint_negative :
  method ≠ nullptr → location < 0 →
  SetBreakpoint rt env method location = Some (INVALID_LOCATION, env).
Proof.
  intros Hm Hl. unfold SetBreakpoint.
  rewrite decide_False by done. by rewrite decide_True.
Qed.

Lemma SetBreakpoint_no_code :
  method ≠ nullptr → 0 ≤ location →
  GetCodeItem rt (method_ (identity rt method location)) = None →
  SetBreakpoint rt env method location = None.
Proof.
  intros Hm Hl Hc. unfold SetBreakpoint. simpl in Hc.
  rewrite decide_False by done. rewrite decide_False by lia.
  by rewrite Hc.
Qed.

Lemma SetBreakpoint_beyond code_item :
  method ≠ nullptr → 0 ≤ location →
  GetCodeItem rt (method_ (identity rt method location)) = Some code_item →
  insns_size_in_code_units_ code_item ≤ static_cast_uint32 location →
  SetBreakpoint rt env method location = Some (INVALID_LOCATION, env).
Proof.
  intros Hm Hl Hc Hn. unfold SetBreakpoint. simpl in Hc.
  rewrite decide_False by done. rewrite decide_False by lia.
  rewrite Hc. by rewrite decide_True.
Qed.

Lemma SetBreakpoint_present :
  method ≠ nullptr →
  location_accepted rt (identity rt method location) →
  identity rt method location ∈ breakpoints env →
  SetBreakpoint rt env method location = Some (DUPLICATE, env).
Proof.
  intros Hm (ci & Hc & Hl & Hn) Hin. unfold SetBreakpoint.
  simpl in Hc, Hl, Hn.
  rewrite decide_False by done. rewrite decide_False by lia.
  rewrite Hc. rewrite decide_False by lia.
  unfold identity in Hin. rewrite insert_present by done.
  simpl. by destruct env.
Qed.

Lemma SetBreakpoint_fresh :
  method ≠ nullptr →
  location_accepted rt (identity rt method location) →
  identity rt method location ∉ breakpoints env →
  SetBreakpoint rt env method location
  = Some (OK, mkEnv ({[identity rt method location]} ∪ breakpoints env)).
Proof.
  intros Hm (ci & Hc & Hl & Hn) Hin. unfold SetBreakpoint.
  simpl in Hc, Hl, Hn.
  rewrite decide_False by done. rewrite decide_False by lia.
  rewrite Hc. rewrite decide_False by lia.
  unfold identity in Hin. by rewrite insert_fresh.
Qed.

(** Every way [SetBreakpoint] returns. *)
Lemma SetBreakpoint_inv err env' :
  SetBreakpoint rt env method location = Some (err, env') →
  (err = INVALID_METHODID ∧ env' = env ∧ method = nullptr)
  ∨ (err = INVALID_LOCATION ∧ env' = env ∧ method ≠ nullptr
     ∧ ¬ location_accepted rt (identity rt method location))
  ∨ (err = DUPLICATE ∧ env' = env ∧ method ≠ nullptr
     ∧ location_accepted rt (identity rt method location)
     ∧ identity rt method location ∈ breakpoints env)
  ∨ (err = OK
     ∧ env' = mkEnv ({[identity rt method location]} ∪ breakpoints env)
     ∧ method ≠ nullptr
     ∧ location_accepted rt (identity rt method location)
     ∧ identity rt method location ∉ breakpoints env).
Proof.
  destruct (decide (method = nullptr)) as [Hm|Hm].
  { rewrite SetBreakpoint_null by done. intros [= <- <-]. by left. }
  destruct (decide (location < 0)) as [Hl|Hl].
  { rewrite SetBreakpoint_negative by done. intros [= <- <-].
    right; left. repeat split; [done|].
    intros (ci & _ & Hl' & _). simpl in Hl'. lia. }
  destruct (GetCodeItem rt (method_ (identity rt method location)))
    as [ci|] eqn:Hc.
  2:{ rewrite SetBreakpoint_no_code by (done || lia). done. }
  destruct (decide (insns_size_in_code_units_ ci
                      ≤ static_cast_uint32 location)) as [Hn|Hn].
  { rewrite (SetBreakpoint_beyond ci) by (done || lia).
    intros [= <- <-]. right; left. repeat split; [done|].
    intros (ci' & Hc' & _ & Hn'). simpl in Hn'.
    rewrite Hc in Hc'. injection Hc' as <-. lia. }
  assert (Hacc : location_accepted rt (identity rt method location)).
  { exists ci. simpl. repeat split; [done | lia | lia]. }
  destruct (decide (identity rt method location ∈ breakpoints env))
    as [Hin|Hin].
  - rewrite SetBreakpoint_present by done. intros [= <- <-].
    right; right; left. done.
  - rewrite SetBreakpoint_fresh by done. intros [= <- <-].
    right; right; right. done.
Qed.

Lemma ClearBreakpoint_null :
  method = nullptr →
  ClearBreakpoint rt env method location = Some (INVALID_METHODID, env).
Proof. intros Hm. unfold ClearBreakpoint. by rewrite decide_True. Qed.

Lemma ClearBreakpoint_absent :
  method ≠ nullptr →
  identity rt method location ∉ breakpoints env →
  ClearBreakpoint rt env method location = Some (NOT_FOUND, env).
Proof.
  intros Hm Hin. unfold ClearBreakpoint. rewrite decide_False by done.
  unfold identity in Hin. simpl.
  by rewrite (proj2 (find_None _ _) Hin).
Qed.

Lemma ClearBreakpoint_present :
  method ≠ nullptr →
  identity rt method location ∈ breakpoints env →
  ClearBreakpoint rt env method location
  = Some (OK, mkEnv (unordered_set.erase (identity rt method location)
                                         (breakpoints env))).
Proof.
  intros Hm Hin. unfold ClearBreakpoint. rewrite decide_False by done.
  unfold identity in *. simpl. by rewrite find_present.
Qed.

(** Every way [ClearBreakpoint] returns. *)
Lemma ClearBreakpoint_inv err env' :
  ClearBreakpoint rt env method location = Some (err, env') →
  (err = INVALID_METHODID ∧ env' = env ∧ method = nullptr)
  ∨ (err = NOT_FOUND ∧ env' = env ∧ method ≠ nullptr
     ∧ identity rt method location ∉ breakpoints env)
  ∨ (err = OK
     ∧ env' = mkEnv (unordered_set.erase (identity rt method location)
                                         (breakpoints env))
     ∧ method ≠ nullptr
     ∧ identity rt method location ∈ breakpoints env).
Proof.
  destruct (decide (method = nullptr)) as [Hm|Hm].
  { rewrite ClearBreakpoint_null by done. intros [= <- <-]. by left. }
  destruct (decide (identity rt method location ∈ breakpoints env))
    as [Hin|Hin].
  - rewrite ClearBreakpoint_present by done. intros [= <- <-].
    right; right. done.
  - rewrite ClearBreakpoint_absent by done. intros [= <- <-].
    right; left. done.
Qed.
End calls.

(** ** The invariant of the reachable states *)

(** Every breakpoint of a reachable registry passed the location test of
    [SetBreakpoint] when it was inserted, and still passes it. *)
Lemma reachable_accepted rt env :
  reachable rt env → ∀ b, b ∈ breakpoints env → location_accepted rt b.
Proof.
  induction 1 as [| env m l err env' _ IH Hcall
                  | env m l err env' _ IH Hcall
                  | env klass env' _ IH Hcall]; intros b Hb.
  - simpl in Hb. set_solver.
  - apply SetBreakpoint_inv in Hcall
      as [(_ & -> & _) | [(_ & -> & _) | [(_ & -> & _) | (_ & -> & _ & Hacc & _)]]];
      auto.
    simpl in Hb. apply elem_of_union in Hb as [Hb|Hb]; [|auto].
    apply elem_of_singleton in Hb. by subst b.
  - apply ClearBreakpoint_inv in Hcall
      as [(_ & -> & _) | [(_ & -> & _) | (_ & -> & _)]]; auto.
    simpl in Hb. apply elem_of_erase in Hb as [Hb _]. auto.
  - rewrite RemoveBreakpointsInClass_returns in Hcall.
    injection Hcall as <-. simpl in Hb.
    apply elem_of_difference in Hb as [Hb _]. auto.
Qed.

(** ** The location test *)

(** With a method that resolves and has bytecode, [INVALID_LOCATION] is
    returned exactly when the location is negative or its low 32 bits reach
    the length of the bytecode. *)
Lemma SetBreakpoint_location_test rt env method location code_item :
  method ≠ nullptr →
  GetCodeItem rt (GetCanonicalMethod rt (DecodeArtMethod rt method))
  = Some code_item →
  SetBreakpoint rt env method location = Some (INVALID_LOCATION, env)
  ↔ location < 0
    ∨ insns_size_in_code_units_ code_item ≤ location mod 2 ^ 32.
Proof.
  intros Hm Hc. split.
  - intros Hcall. apply SetBreakpoint_inv in Hcall
      as [(? & _) | [(_ & _ & _ & Hacc) | [(? & _) | (? & _)]]]; try done.
    destruct (decide (location < 0)); [by left | right].
    destruct (decide (insns_size_in_code_units_ code_item
                        ≤ location mod 2 ^ 32)); [done|].
    exfalso. apply Hacc. exists code_item. simpl.
    unfold static_cast_uint32. repeat split; [done | lia | lia].
  - intros [Hl|Hn].
    + by apply SetBreakpoint_negative.
    + destruct (decide (location < 0)); [by apply SetBreakpoint_negative|].
      apply (SetBreakpoint_beyond _ _ _ _ code_item); [done | lia | done | done].
Qed.

(** For a location below 2^32 the test is the comparison with the length of
    the bytecode: -1 and N are rejected, N-1 is accepted. *)
Lemma SetBreakpoint_location_bounds rt env method location code_item :
  method ≠ nullptr →
  GetCodeItem rt (GetCanonicalMethod rt (DecodeArtMethod rt method))
  = Some code_item →
  location < 2 ^ 32 →
  SetBreakpoint rt env method location = Some (INVALID_LOCATION, env)
  ↔ location < 0 ∨ insns_size_in_code_units_ code_item ≤ location.
Proof.
  intros Hm Hc Hl. rewrite (SetBreakpoint_location_test _ _ _ _ code_item) by done.
  destruct (decide (location < 0)); [tauto|].
  rewrite Z.mod_small by lia. tauto.
Qed.

(** ** A run

    Set(mA,0), Set(mA,0), Set(mA,10), Clear(mA,0), Clear(mA,0) and the removal
    of the class of mA, with mA the method at 0x1000. *)
Example registry_run :
  SetBreakpoint rt0 env0 0x1000 0 = Some (OK, env1)
  ∧ SetBreakpoint rt0 env1 0x1000 0 = Some (DUPLICATE, env1)
  ∧ SetBreakpoint rt0 env1 0x1000 10
    = Some (OK, mkEnv {[ mkBreakpoint 0x1000 10; mkBreakpoint 0x1000 0 ]})
  ∧ ClearBreakpoint rt0
      (mkEnv {[ mkBreakpoint 0x1000 10; mkBreakpoint 0x1000 0 ]}) 0x1000 0
    = Some (OK, mkEnv {[ mkBreakpoint 0x1000 10 ]})
  ∧ ClearBreakpoint rt0 (mkEnv {[ mkBreakpoint 0x1000 10 ]}) 0x1000 0
    = Some (NOT_FOUND, mkEnv {[ mkBreakpoint 0x1000 10 ]})
  ∧ RemoveBreakpointsInClass rt0 (mkEnv {[ mkBreakpoint 0x1000 10 ]}) 0x7000
    = Some env0
  ∧ RemoveBreakpointsInClass rt0 env3 0x7000
    = Some (mkEnv {[ mkBreakpoint 0x2000 3 ]})
  ∧ SetBreakpoint rt0 env0 0x2040 0 = None
  ∧ SetBreakpoint rt0 env0 0x2040 (-1) = Some (INVALID_LOCATION, env0).
Proof. repeat split; vm_compute; reflexivity. Qed.

(** * The claims *)

(** C1. Location bounds: [SetBreakpoint] is to return [INVALID_LOCATION] for
    every 64-bit location [l] with [l < 0] or [l >= N].  At the method at
    0x1040, whose bytecode has [N = 1] code unit, and the location [2^32], a
    [jlong] that is at least [N], the call instead returns [OK] and inserts
    the breakpoint: the comparison of line 86 is made on
    [static_cast<uint32_t>(location)], which is 0 here. *)
Theorem SetBreakpoint_accepts_location_2_32 :
  GetCodeItem rt0 (GetCanonicalMethod rt0 (DecodeArtMethod rt0 0x1040))
  = Some (mkCodeItem 1)
  ∧ uint32_range (insns_size_in_code_units_ (mkCodeItem 1))
  ∧ jlong_range (2 ^ 32)
  ∧ insns_size_in_code_units_ (mkCodeItem 1) ≤ 2 ^ 32
  ∧ static_cast_uint32 (2 ^ 32) = 0
  ∧ SetBreakpoint rt0 env0 0x1040 (2 ^ 32)
    = Some (OK, mkEnv {[ mkBreakpoint 0x1040 (2 ^ 32) ]}).
Proof.
  split; [reflexivity|]. split; [unfold uint32_range; simpl; lia|].
  split; [unfold jlong_range; lia|].
  split; [simpl; lia|]. split; [reflexivity|].
  vm_compute. reflexivity.
Qed.

(** C2, as amended. [Breakpoint::hash] is the bitwise exclusive or of the hash
    of the method address and the hash of the location, a commutative
    combination: whenever the two standard hash functions agree on two values
    [a] and [b], the breakpoints (method [a], location [b]) and (method [b],
    location [a]) have the same hash. *)
Theorem hash_swap_collides (hash_uintptr_t hash_jlocation : Z → Z) (a b : Z) :
  hash_uintptr_t (reinterpret_cast_uintptr_t a) = hash_jlocation a →
  hash_uintptr_t (reinterpret_cast_uintptr_t b) = hash_jlocation b →
  hash hash_uintptr_t hash_jlocation (mkBreakpoint a b)
  = hash hash_uintptr_t hash_jlocation (mkBreakpoint b a).
Proof.
  intros Ha Hb. unfold hash. simpl. rewrite Ha, Hb. apply Z.lxor_comm.
Qed.

Lemma std_hash_lp64_address x :
  std_hash_lp64 (reinterpret_cast_uintptr_t x) = std_hash_lp64 x.
Proof.
  unfold std_hash_lp64, static_cast_size_t, reinterpret_cast_uintptr_t.
  apply Z.mod_mod. lia.
Qed.

Lemma hash_swap_collides_witness :
  std_hash_lp64 (reinterpret_cast_uintptr_t 0x1000) = std_hash_lp64 0x1000
  ∧ std_hash_lp64 (reinterpret_cast_uintptr_t 7) = std_hash_lp64 7
  ∧ hash std_hash_lp64 std_hash_lp64 (mkBreakpoint 0x1000 7)
    = hash std_hash_lp64 std_hash_lp64 (mkBreakpoint 7 0x1000).
Proof.
  split; [reflexivity|]. split; [reflexivity|].
  apply (hash_swap_collides std_hash_lp64 std_hash_lp64 0x1000 7);
    reflexivity.
Defined.

(** C2, as stated, fails: with the standard hash of 64-bit integers, which
    converts the value to [size_t], no pair [(a, b)] gives the two
    breakpoints (method [a], location [b]) and (method [b], location [a])
    different hashes. *)
Lemma hash_not_order_sensitive :
  ¬ ∃ a b : Z,
      hash std_hash_lp64 std_hash_lp64 (mkBreakpoint a b)
      ≠ hash std_hash_lp64 std_hash_lp64 (mkBreakpoint b a).
Proof.
  intros (a & b & Hne). apply Hne. unfold hash. simpl.
  rewrite !std_hash_lp64_address. apply Z.lxor_comm.
Qed.

(** C3. A call of [SetBreakpoint] or [ClearBreakpoint] that returns an error
    returns the environment it was given: the set of breakpoints is the one
    before the call. *)
Theorem failed_call_keeps_breakpoints rt env method location err env' :
  SetBreakpoint rt env method location = Some (err, env')
  ∨ ClearBreakpoint rt env method location = Some (err, env') →
  err ≠ OK →
  env' = env ∧ breakpoints env' = breakpoints env.
Proof.
  intros [Hcall|Hcall] Herr.
  - apply SetBreakpoint_inv in Hcall
      as [(_ & -> & _) | [(_ & -> & _) | [(_ & -> & _) | (-> & _)]]]; done.
  - apply ClearBreakpoint_inv in Hcall
      as [(_ & -> & _) | [(_ & -> & _) | (-> & _)]]; done.
Qed.

Lemma failed_call_keeps_breakpoints_witness :
  (SetBreakpoint rt0 env1 0x1000 0 = Some (DUPLICATE, env1)
   ∨ ClearBreakpoint rt0 env1 0x1000 0 = Some (DUPLICATE, env1))
  ∧ DUPLICATE ≠ OK
  ∧ env1 = env1 ∧ breakpoints env1 = breakpoints env1.
Proof.
  assert (Hcall : SetBreakpoint rt0 env1 0x1000 0 = Some (DUPLICATE, env1))
    by (vm_compute; reflexivity).
  split; [by left|]. split; [discriminate|].
  apply (failed_call_keeps_breakpoints rt0 env1 0x1000 0 DUPLICATE env1);
    [by left | discriminate].
Defined.

(** C4. Uniqueness.  In a reachable registry and for a method that is not
    null: after [SetBreakpoint] succeeded, a second [SetBreakpoint] at the same
    location, through any identifier of the same canonical method, returns
    [DUPLICATE] and leaves the set, hence its size, as it was; and
    [SetBreakpoint] returns [DUPLICATE] exactly when the identity of the
    canonical method and the location is already in the set. *)
Theorem SetBreakpoint_duplicate rt env method location :
  reachable rt env →
  method ≠ nullptr →
  (∀ env1 method',
      SetBreakpoint rt env method location = Some (OK, env1) →
      method' ≠ nullptr →
      GetCanonicalMethod rt (DecodeArtMethod rt method')
      = GetCanonicalMethod rt (DecodeArtMethod rt method) →
      ∃ env2, SetBreakpoint rt env1 method' location = Some (DUPLICATE, env2)
              ∧ breakpoints env2 = breakpoints env1
              ∧ size (breakpoints env2) = size (breakpoints env1))
  ∧ ((∃ env', SetBreakpoint rt env method location = Some (DUPLICATE, env'))
     ↔ identity rt method location ∈ breakpoints env)
  ∧ (∀ env', SetBreakpoint rt env method location = Some (DUPLICATE, env') →
             size (breakpoints env') = size (breakpoints env)).
Proof.
  intros Hreach Hm. split; [|split].
  - intros env1 method' Hcall Hm' Hcanon.
    apply SetBreakpoint_inv in Hcall
      as [(? & _) | [(? & _) | [(? & _) | (_ & -> & _ & Hacc & _)]]];
      try done.
    exists (mkEnv ({[identity rt method location]} ∪ breakpoints env)).
    split; [|done].
    assert (Hid : identity rt method' location = identity rt method location)
      by (unfold identity; by rewrite Hcanon).
    apply SetBreakpoint_present; [done | by rewrite Hid |].
    rewrite Hid. simpl. set_solver.
  - split.
    + intros [env' Hcall].
      apply SetBreakpoint_inv in Hcall
        as [(? & _) | [(? & _) | [(_ & _ & _ & _ & Hin) | (? & _)]]];
        done.
    + intros Hin. exists env.
      apply SetBreakpoint_present; [done | | done].
      by apply (reachable_accepted rt env).
  - intros env' Hcall.
    apply SetBreakpoint_inv in Hcall
      as [(? & _) | [(? & _) | [(_ & -> & _) | (? & _)]]]; done.
Qed.

Lemma reachable_env1 : reachable rt0 env1.
Proof.
  apply (reachable_set rt0 env0 0x1000 0 OK env1); [apply reachable_init|].
  vm_compute. reflexivity.
Defined.

Lemma SetBreakpoint_duplicate_witness :
  reachable rt0 env1
  ∧ 0x1000 ≠ nullptr
  ∧ (∃ env', SetBreakpoint rt0 env1 0x1000 0 = Some (DUPLICATE, env'))
  ∧ (∀ env1' method',
        SetBreakpoint rt0 env1 0x1000 5 = Some (OK, env1') →
        method' ≠ nullptr →
        GetCanonicalMethod rt0 (DecodeArtMethod rt0 method')
        = GetCanonicalMethod rt0 (DecodeArtMethod rt0 0x1000) →
        ∃ env2, SetBreakpoint rt0 env1' method' 5 = Some (DUPLICATE, env2)
                ∧ breakpoints env2 = breakpoints env1'
                ∧ size (breakpoints env2) = size (breakpoints env1')).
Proof.
  assert (Hm : 0x1000 ≠ nullptr) by discriminate.
  split; [apply reachable_env1|]. split; [exact Hm|]. split.
  - apply (SetBreakpoint_duplicate rt0 env1 0x1000 0 reachable_env1 Hm).
    vm_compute. reflexivity.
  - apply (SetBreakpoint_duplicate rt0 env1 0x1000 5 reachable_env1 Hm).
Defined.

(** C5. Round trip.  From a registry without a breakpoint at the canonical
    method and location, a successful [SetBreakpoint] followed by
    [ClearBreakpoint] of the same method and location succeeds and gives back
    the registry of before; [Contains] is then false. *)
Theorem SetBreakpoint_ClearBreakpoint_roundtrip rt env method location env1 :
  identity rt method location ∉ breakpoints env →
  SetBreakpoint rt env method location = Some (OK, env1) →
  ∃ env2, ClearBreakpoint rt env1 method location = Some (OK, env2)
          ∧ env2 = env
          ∧ Contains rt env2 method location = false.
Proof.
  intros Hin Hcall.
  apply SetBreakpoint_inv in Hcall
    as [(? & _) | [(? & _) | [(? & _) | (_ & -> & Hm & _ & _)]]]; try done.
  exists env. split; [|split; [done|]].
  - rewrite ClearBreakpoint_present by (done || (simpl; set_solver)).
    simpl. rewrite erase_insert_fresh by done. by destruct env.
  - unfold Contains. fold (identity rt method location).
    by rewrite (proj2 (find_None _ _) Hin).
Qed.

Lemma SetBreakpoint_ClearBreakpoint_roundtrip_witness :
  (identity rt0 0x2080 3 ∉ breakpoints env1)
  ∧ SetBreakpoint rt0 env1 0x2080 3
    = Some (OK, mkEnv {[ mkBreakpoint 0x1000 3; mkBreakpoint 0x1000 0 ]})
  ∧ (∃ env2,
        ClearBreakpoint rt0
          (mkEnv {[ mkBreakpoint 0x1000 3; mkBreakpoint 0x1000 0 ]}) 0x2080 3
        = Some (OK, env2)
        ∧ env2 = env1
        ∧ Contains rt0 env2 0x2080 3 = false).
Proof.
  assert (Hin : identity rt0 0x2080 3 ∉ breakpoints env1).
  { apply (bool_decide_unpack _). vm_compute. exact I. }
  assert (Hcall : SetBreakpoint rt0 env1 0x2080 3
    = Some (OK, mkEnv {[ mkBreakpoint 0x1000 3; mkBreakpoint 0x1000 0 ]}))
    by (vm_compute; reflexivity).
  split; [exact Hin|]. split; [exact Hcall|].
  exact (SetBreakpoint_ClearBreakpoint_roundtrip rt0 env1 0x2080 3 _ Hin Hcall).
Defined.

(** C6. [RemoveBreakpointsInClass] returns for every registry and class; the
    breakpoints left are exactly those of the registry whose method has
    another declaring class; and when no breakpoint has a method declared by
    the class the registry is unchanged. *)
Theorem RemoveBreakpointsInClass_removes_class rt env klass :
  ∃ env',
    RemoveBreakpointsInClass rt env klass = Some env'
    ∧ (∀ b, b ∈ breakpoints env'
            ↔ b ∈ breakpoints env
              ∧ GetDeclaringClass rt (GetMethod b) ≠ klass)
    ∧ ((∀ b, b ∈ breakpoints env →
             GetDeclaringClass rt (GetMethod b) ≠ klass) →
       env' = env).
Proof.
  eexists. split; [apply RemoveBreakpointsInClass_returns|].
  assert (Hiff : ∀ b,
    b ∈ breakpoints env ∖ list_to_set (collect rt klass (breakpoints env))
    ↔ b ∈ breakpoints env ∧ GetDeclaringClass rt (GetMethod b) ≠ klass).
  { intros b. rewrite elem_of_difference, elem_of_list_to_set, elem_of_collect.
    unfold GetMethod. tauto. }
  split; [exact Hiff|].
  intros Hnone. destruct env as [s]. simpl in *. f_equal.
  apply set_eq. intros b. rewrite Hiff. split; [tauto|].
  intros Hb. split; [done | by apply Hnone].
Qed.

(** C7. [SetBreakpoint] and [ClearBreakpoint] build the identity from the same
    canonical method: a breakpoint set through the identifier [a] is cleared
    through any identifier [b] with the same canonical method, which gives
    back the registry of before the two calls. *)
Theorem ClearBreakpoint_through_alias rt env a b location env1 :
  b ≠ nullptr →
  GetCanonicalMethod rt (DecodeArtMethod rt a)
  = GetCanonicalMethod rt (DecodeArtMethod rt b) →
  SetBreakpoint rt env a location = Some (OK, env1) →
  ClearBreakpoint rt env1 b location = Some (OK, env).
Proof.
  intros Hb Hcanon Hcall.
  assert (Hid : identity rt b location = identity rt a location)
    by (unfold identity; by rewrite Hcanon).
  apply SetBreakpoint_inv in Hcall
    as [(? & _) | [(? & _) | [(? & _) | (_ & -> & _ & _ & Hin)]]]; try done.
  rewrite ClearBreakpoint_present; [|done|rewrite Hid; simpl; set_solver].
  rewrite Hid. simpl. rewrite erase_insert_fresh by done. by destruct env.
Qed.

Lemma ClearBreakpoint_through_alias_witness :
  (0x1000 ≠ nullptr ∧ 0x2080 ≠ nullptr)
  ∧ GetCanonicalMethod rt0 (DecodeArtMethod rt0 0x2080)
    = GetCanonicalMethod rt0 (DecodeArtMethod rt0 0x1000)
  ∧ SetBreakpoint rt0 env0 0x2080 0 = Some (OK, env1)
  ∧ ClearBreakpoint rt0 env1 0x1000 0 = Some (OK, env0)
  ∧ SetBreakpoint rt0 env0 0x1000 0 = Some (OK, env1)
  ∧ ClearBreakpoint rt0 env1 0x2080 0 = Some (OK, env0).
Proof.
  assert (Hset_a : SetBreakpoint rt0 env0 0x2080 0 = Some (OK, env1))
    by (vm_compute; reflexivity).
  assert (Hset_b : SetBreakpoint rt0 env0 0x1000 0 = Some (OK, env1))
    by (vm_compute; reflexivity).
  split; [split; discriminate|]. split; [reflexivity|].
  split; [exact Hset_a|]. split; [|split; [exact Hset_b|]].
  - apply (ClearBreakpoint_through_alias rt0 env0 0x2080 0x1000 0 env1);
      [discriminate | reflexivity | exact Hset_a].
  - apply (ClearBreakpoint_through_alias rt0 env0 0x1000 0x2080 0 env1);
      [discriminate | reflexivity | exact Hset_b].
Defined.

(** C8. For the null method identifier, the one that does not denote a
    method, [SetBreakpoint] and [ClearBreakpoint] return [INVALID_METHODID]
    and the registry they were given, whatever the runtime, the registry and
    the location are: nothing of the method or of the location is read before
    the return. *)
Theorem null_method_is_invalid rt env location :
  SetBreakpoint rt env nullptr location = Some (INVALID_METHODID, env)
  ∧ ClearBreakpoint rt env nullptr location = Some (INVALID_METHODID, env)
  ∧ (∀ method err env',
        SetBreakpoint rt env method location = Some (err, env')
        ∨ ClearBreakpoint rt env method location = Some (err, env') →
        (err = INVALID_METHODID ↔ method = nullptr)).
Proof.
  split; [by apply SetBreakpoint_null|].
  split; [by apply ClearBreakpoint_null|].
  intros method err env' [Hcall|Hcall].
  - apply SetBreakpoint_inv in Hcall
      as [(-> & _ & ->) | [(-> & _ & Hm & _) | [(-> & _ & Hm & _)
         | (-> & _ & Hm & _)]]]; split; done.
  - apply ClearBreakpoint_inv in Hcall
      as [(-> & _ & ->) | [(-> & _ & Hm & _) | (-> & _ & Hm & _)]];
      split; done.
Qed.

(** C9. For a method that is not null, [ClearBreakpoint] returns [NOT_FOUND]
    exactly when the identity of the canonical method and the location is not
    in the set, and the registry is then unchanged; otherwise it returns [OK]
    and the set without that identity, all others kept. *)
Theorem ClearBreakpoint_not_found_iff rt env method location :
  method ≠ nullptr →
  ((∃ env', ClearBreakpoint rt env method location = Some (NOT_FOUND, env'))
   ↔ identity rt method location ∉ breakpoints env)
  ∧ (identity rt method location ∉ breakpoints env →
     ClearBreakpoint rt env method location = Some (NOT_FOUND, env))
  ∧ (identity rt method location ∈ breakpoints env →
     ∃ env', ClearBreakpoint rt env method location = Some (OK, env')
             ∧ ∀ b, b ∈ breakpoints env'
                    ↔ b ∈ breakpoints env ∧ b ≠ identity rt method location).
Proof.
  intros Hm. split; [split|split].
  - intros [env' Hcall]. apply ClearBreakpoint_inv in Hcall
      as [(? & _) | [(_ & _ & _ & Hin) | (? & _)]]; done.
  - intros Hin. exists env. by apply ClearBreakpoint_absent.
  - by apply ClearBreakpoint_absent.
  - intros Hin. eexists. split; [by apply ClearBreakpoint_present|].
    intros b. simpl. apply elem_of_erase.
Qed.

Lemma ClearBreakpoint_not_found_iff_witness :
  0x1000 ≠ nullptr
  ∧ ClearBreakpoint rt0 env1 0x1000 7 = Some (NOT_FOUND, env1)
  ∧ (∃ env', ClearBreakpoint rt0 env1 0x1000 0 = Some (OK, env')
             ∧ ∀ b, b ∈ breakpoints env'
                    ↔ b ∈ breakpoints env1 ∧ b ≠ identity rt0 0x1000 0).
Proof.
  assert (Hm : 0x1000 ≠ nullptr) by discriminate.
  split; [exact Hm|]. split.
  - apply (ClearBreakpoint_not_found_iff rt0 env1 0x1000 7 Hm).
    apply (bool_decide_unpack _). vm_compute. exact I.
  - apply (ClearBreakpoint_not_found_iff rt0 env1 0x1000 0 Hm).
    apply (bool_decide_unpack _). vm_compute. exact I.
Defined.

(** C10. In [RemoveBreakpointsInClass], when the second loop reaches an
    element [b] of [to_remove], the elements before it have been erased
    without failure, [find] returns the position of [b] in the set as it is
    then, and the [erase] at that position makes the set one element smaller;
    the loop runs to its end. *)
Theorem to_remove_found_and_erased rt env klass pre b post :
  collect rt klass (breakpoints env) = pre ++ b :: post →
  ∃ cur,
    erase_all pre (breakpoints env) = Some cur
    ∧ unordered_set.find b cur = Some b
    ∧ S (size (unordered_set.erase b cur)) = size cur
    ∧ is_Some (erase_all (b :: post) cur).
Proof.
  intros Hsplit.
  pose proof (collect_NoDup rt klass (breakpoints env)) as Hnd.
  pose proof (erase_all_collect rt klass (breakpoints env)) as Hall.
  rewrite Hsplit in Hnd, Hall.
  assert (Hpre : erase_all pre (breakpoints env)
                 = Some (breakpoints env ∖ list_to_set pre)).
  { apply NoDup_app in Hnd as (Hnd & _ & _).
    apply erase_all_present; [done|].
    intros x Hx. apply (elem_of_collect rt klass). rewrite Hsplit.
    apply elem_of_app. by left. }
  exists (breakpoints env ∖ list_to_set pre). split; [done|].
  assert (Hb : b ∈ breakpoints env ∖ list_to_set pre).
  { apply elem_of_difference. split.
    - apply (elem_of_collect rt klass). rewrite Hsplit.
      apply elem_of_app. right. left.
    - rewrite elem_of_list_to_set. intros Hin.
      apply NoDup_app in Hnd as (_ & Hdisj & _).
      apply (Hdisj b Hin). left. }
  split; [by apply find_present|]. split; [by apply size_erase|].
  rewrite erase_all_app, Hpre in Hall. by rewrite Hall.
Qed.

Lemma to_remove_found_and_erased_witness :
  collect rt0 0x7000 (breakpoints env3)
  = [mkBreakpoint 0x1040 0] ++ mkBreakpoint 0x1000 5 :: []
  ∧ (∃ cur,
        erase_all [mkBreakpoint 0x1040 0] (breakpoints env3) = Some cur
        ∧ unordered_set.find (mkBreakpoint 0x1000 5) cur
          = Some (mkBreakpoint 0x1000 5)
        ∧ S (size (unordered_set.erase (mkBreakpoint 0x1000 5) cur)) = size cur
        ∧ is_Some (erase_all (mkBreakpoint 0x1000 5 :: []) cur)).
Proof.
  assert (Hsplit : collect rt0 0x7000 (breakpoints env3)
    = [mkBreakpoint 0x1040 0] ++ mkBreakpoint 0x1000 5 :: [])
    by (vm_compute; reflexivity).
  split; [exact Hsplit|].
  exact (to_remove_found_and_erased rt0 env3 0x7000 _ _ _ Hsplit).
Defined.

(** * Further properties of the registry *)

(** X1. [SetBreakpoint] has no defined result in exactly one situation: the
    method is not null, the location is not negative, and the canonical method
    has no code item, whose member line 87 then reads through a null
    pointer. *)
Theorem SetBreakpoint_undefined_iff rt env method location :
  SetBreakpoint rt env method location = None
  ↔ method ≠ nullptr
    ∧ 0 ≤ location
    ∧ GetCodeItem rt (GetCanonicalMethod rt (DecodeArtMethod rt method)) = None.
Proof.
  split.
  - intros Hcall. unfold SetBreakpoint in Hcall.
    destruct (decide (method = nullptr)); [done|].
    destruct (decide (location < 0)); [done|].
    destruct (GetCodeItem rt _) as [ci|] eqn:Hc.
    + destruct (decide (_ ≤ _)); [done|]. by destruct (negb _).
    + repeat split; [done | lia].
  - intros (Hm & Hl & Hc). by apply SetBreakpoint_no_code.
Qed.

(** X2. A successful [SetBreakpoint] adds exactly the identity of the
    canonical method and the location: it was absent, it is present
    afterwards, every other breakpoint is kept, none else appears, and the
    size of the set grows by one. *)
Theorem SetBreakpoint_OK_adds_one rt env method location env' :
  SetBreakpoint rt env method location = Some (OK, env') →
  (identity rt method location ∉ breakpoints env)
  ∧ (∀ b, b ∈ breakpoints env'
          ↔ b = identity rt method location ∨ b ∈ breakpoints env)
  ∧ size (breakpoints env') = S (size (breakpoints env)).
Proof.
  intros Hcall. apply SetBreakpoint_inv in Hcall
    as [(? & _) | [(? & _) | [(? & _) | (_ & -> & _ & _ & Hin)]]]; try done.
  split; [done|]. split.
  - intros b. simpl. rewrite elem_of_union, elem_of_singleton. tauto.
  - simpl. rewrite size_union by set_solver. by rewrite size_singleton.
Qed.

Lemma SetBreakpoint_OK_adds_one_witness :
  SetBreakpoint rt0 env1 0x2000 3
  = Some (OK, mkEnv {[ mkBreakpoint 0x2000 3; mkBreakpoint 0x1000 0 ]})
  ∧ size (breakpoints (mkEnv {[ mkBreakpoint 0x2000 3; mkBreakpoint 0x1000 0 ]}))
    = S (size (breakpoints env1)).
Proof.
  assert (Hcall : SetBreakpoint rt0 env1 0x2000 3
    = Some (OK, mkEnv {[ mkBreakpoint 0x2000 3; mkBreakpoint 0x1000 0 ]}))
    by (vm_compute; reflexivity).
  split; [exact Hcall|].
  apply (SetBreakpoint_OK_adds_one rt0 env1 0x2000 3 _ Hcall).
Defined.

(** X3. A successful [ClearBreakpoint] found the identity in the set, leaves
    a set without it, and makes the set one element smaller. *)
Theorem ClearBreakpoint_OK_removes_one rt env method location env' :
  ClearBreakpoint rt env method location = Some (OK, env') →
  (identity rt method location ∈ breakpoints env)
  ∧ (identity rt method location ∉ breakpoints env')
  ∧ S (size (breakpoints env')) = size (breakpoints env).
Proof.
  intros Hcall. apply ClearBreakpoint_inv in Hcall
    as [(? & _) | [(? & _) | (_ & -> & _ & Hin)]]; try done.
  split; [done|]. split.
  - simpl. rewrite elem_of_erase. tauto.
  - simpl. by apply size_erase.
Qed.

Lemma ClearBreakpoint_OK_removes_one_witness :
  ClearBreakpoint rt0 env1 0x2080 0 = Some (OK, env0)
  ∧ S (size (breakpoints env0)) = size (breakpoints env1).
Proof.
  assert (Hcall : ClearBreakpoint rt0 env1 0x2080 0 = Some (OK, env0))
    by (vm_compute; reflexivity).
  split; [exact Hcall|].
  apply (ClearBreakpoint_OK_removes_one rt0 env1 0x2080 0 _ Hcall).
Defined.

(** X4. [ClearBreakpoint] reads neither the code item nor the sign of the
    location: it returns for every input, with [OK], [INVALID_METHODID] or
    [NOT_FOUND] and never [INVALID_LOCATION] or [DUPLICATE]; and
    [SetBreakpoint] never returns [NOT_FOUND]. *)
Theorem error_codes_of_calls rt env method location :
  (∃ err env',
      ClearBreakpoint rt env method location = Some (err, env')
      ∧ (err = OK ∨ err = INVALID_METHODID ∨ err = NOT_FOUND))
  ∧ (∀ err env',
        SetBreakpoint rt env method location = Some (err, env') →
        err = OK ∨ err = INVALID_METHODID ∨ err = INVALID_LOCATION
        ∨ err = DUPLICATE).
Proof.
  split.
  - destruct (decide (method = nullptr)) as [Hm|Hm].
    { eexists _, _. split; [by apply ClearBreakpoint_null | tauto]. }
    destruct (decide (identity rt method location ∈ breakpoints env)).
    + eexists _, _. split; [by apply ClearBreakpoint_present | tauto].
    + eexists _, _. split; [by apply ClearBreakpoint_absent | tauto].
  - intros err env' Hcall. apply SetBreakpoint_inv in Hcall
      as [(-> & _) | [(-> & _) | [(-> & _) | (-> & _)]]]; tauto.
Qed.

(** X5. In a reachable registry every breakpoint was built by a successful
    [SetBreakpoint]: its method is the canonical method of an identifier that
    is not null and has a code item, its location is not negative, and the low
    32 bits of the location are below the length of the bytecode. *)
Theorem reachable_breakpoints_resolved rt env b :
  reachable rt env →
  b ∈ breakpoints env →
  (∃ method, method ≠ nullptr
             ∧ GetMethod b = GetCanonicalMethod rt (DecodeArtMethod rt method))
  ∧ (∃ code_item, GetCodeItem rt (GetMethod b) = Some code_item
       ∧ 0 ≤ GetLocation b
       ∧ GetLocation b mod 2 ^ 32 < insns_size_in_code_units_ code_item).
Proof.
  intros Hreach Hb. split; [|by apply (reachable_accepted rt env)].
  revert b Hb.
  induction Hreach as [| env m l err env' _ IH Hcall
                       | env m l err env' _ IH Hcall
                       | env klass env' _ IH Hcall]; intros b Hb.
  - simpl in Hb. set_solver.
  - apply SetBreakpoint_inv in Hcall
      as [(_ & -> & _) | [(_ & -> & _) | [(_ & -> & _) | (_ & -> & Hm & _)]]];
      auto.
    simpl in Hb. apply elem_of_union in Hb as [Hb|Hb]; [|auto].
    apply elem_of_singleton in Hb. subst b. by exists m.
  - apply ClearBreakpoint_inv in Hcall
      as [(_ & -> & _) | [(_ & -> & _) | (_ & -> & _)]]; auto.
    simpl in Hb. apply elem_of_erase in Hb as [Hb _]. auto.
  - rewrite RemoveBreakpointsInClass_returns in Hcall.
    injection Hcall as <-. simpl in Hb.
    apply elem_of_difference in Hb as [Hb _]. auto.
Qed.

Lemma reachable_breakpoints_resolved_witness :
  reachable rt0 env1
  ∧ (mkBreakpoint 0x1000 0 ∈ breakpoints env1)
  ∧ (∃ code_item,
        GetCodeItem rt0 (GetMethod (mkBreakpoint 0x1000 0)) = Some code_item
        ∧ 0 ≤ GetLocation (mkBreakpoint 0x1000 0)
        ∧ GetLocation (mkBreakpoint 0x1000 0) mod 2 ^ 32
          < insns_size_in_code_units_ code_item).
Proof.
  assert (Hb : mkBreakpoint 0x1000 0 ∈ breakpoints env1).
  { apply (bool_decide_unpack _). vm_compute. exact I. }
  split; [apply reachable_env1|]. split; [exact Hb|].
  apply (reachable_breakpoints_resolved rt0 env1 _ reachable_env1 Hb).
Defined.

(** ** Removal by class *)

Lemma difference_collect rt klass s b :
  b ∈ s ∖ list_to_set (collect rt klass s)
  ↔ b ∈ s ∧ GetDeclaringClass rt (GetMethod b) ≠ klass.
Proof.
  rewrite elem_of_difference, elem_of_list_to_set, elem_of_collect.
  unfold GetMethod. tauto.
Qed.

(** X6. [RemoveBreakpointsInClass] removes as many breakpoints as its first
    loop collected: the size of the set after the call plus the length of
    [to_remove] is the size before. *)
Theorem RemoveBreakpointsInClass_size rt env klass :
  ∃ env',
    RemoveBreakpointsInClass rt env klass = Some env'
    ∧ (size (breakpoints env')
       + length (collect rt klass (breakpoints env)))%nat
      = size (breakpoints env).
Proof.
  eexists. split; [apply RemoveBreakpointsInClass_returns|]. simpl.
  assert (Hsub : list_to_set (C:=gset Breakpoint)
                   (collect rt klass (breakpoints env)) ⊆ breakpoints env).
  { intros b Hb. apply elem_of_list_to_set, elem_of_collect in Hb. tauto. }
  rewrite size_difference by done.
  rewrite size_list_to_set by apply collect_NoDup.
  apply subseteq_size in Hsub.
  rewrite size_list_to_set in Hsub by apply collect_NoDup. lia.
Qed.

(** X7. Removing the breakpoints of a class a second time changes nothing,
    and the removals of two classes give the same registry in either
    order. *)
Theorem RemoveBreakpointsInClass_idempotent_commutes rt env klass1 klass2 :
  ∃ e1 e2 e12,
    RemoveBreakpointsInClass rt env klass1 = Some e1
    ∧ RemoveBreakpointsInClass rt e1 klass1 = Some e1
    ∧ RemoveBreakpointsInClass rt env klass2 = Some e2
    ∧ RemoveBreakpointsInClass rt e1 klass2 = Some e12
    ∧ RemoveBreakpointsInClass rt e2 klass1 = Some e12.
Proof.
  eexists _, _, _.
  split; [apply RemoveBreakpointsInClass_returns|].
  split; [|split; [apply RemoveBreakpointsInClass_returns|
           split; [apply RemoveBreakpointsInClass_returns|]]].
  - rewrite RemoveBreakpointsInClass_returns. simpl. do 2 f_equal.
    apply set_eq. intros b. rewrite !difference_collect. tauto.
  - rewrite RemoveBreakpointsInClass_returns. simpl. do 2 f_equal.
    apply set_eq. intros b. rewrite !difference_collect. tauto.
Qed.

(** X8. After [RemoveBreakpointsInClass] of a class, [ClearBreakpoint] of any
    method whose canonical method is declared by that class returns
    [NOT_FOUND], at every location. *)
Theorem ClearBreakpoint_after_class_removal rt env klass method location :
  method ≠ nullptr →
  GetDeclaringClass rt (GetCanonicalMethod rt (DecodeArtMethod rt method))
  = klass →
  ∃ env',
    RemoveBreakpointsInClass rt env klass = Some env'
    ∧ ClearBreakpoint rt env' method location = Some (NOT_FOUND, env').
Proof.
  intros Hm Hk. eexists. split; [apply RemoveBreakpointsInClass_returns|].
  apply ClearBreakpoint_absent; [done|]. simpl.
  rewrite difference_collect. unfold GetMethod, identity. simpl. tauto.
Qed.

Lemma ClearBreakpoint_after_class_removal_witness :
  0x2080 ≠ nullptr
  ∧ GetDeclaringClass rt0 (GetCanonicalMethod rt0 (DecodeArtMethod rt0 0x2080))
    = 0x7000
  ∧ (∃ env',
        RemoveBreakpointsInClass rt0 env3 0x7000 = Some env'
        ∧ ClearBreakpoint rt0 env' 0x2080 5 = Some (NOT_FOUND, env')).
Proof.
  split; [discriminate|]. split; [reflexivity|].
  apply (ClearBreakpoint_after_class_removal rt0 env3 0x7000 0x2080 5);
    [discriminate | reflexivity].
Defined.

(** X9. A breakpoint is filed under the declaring class of the canonical
    method, not of the method the identifier denotes: after a successful
    [SetBreakpoint], [RemoveBreakpointsInClass] of a class removes the new
    breakpoint exactly when that class declares the canonical method. *)
Theorem class_removal_follows_canonical_method
    rt env method location env1 klass :
  SetBreakpoint rt env method location = Some (OK, env1) →
  ∃ env2,
    RemoveBreakpointsInClass rt env1 klass = Some env2
    ∧ (identity rt method location ∈ breakpoints env2
       ↔ GetDeclaringClass rt
           (GetCanonicalMethod rt (DecodeArtMethod rt method)) ≠ klass).
Proof.
  intros Hcall. apply SetBreakpoint_inv in Hcall
    as [(? & _) | [(? & _) | [(? & _) | (_ & -> & _)]]]; try done.
  eexists. split; [apply RemoveBreakpointsInClass_returns|]. simpl.
  rewrite difference_collect. unfold GetMethod, identity. simpl.
  split; [tauto|]. intros Hk. split; [set_solver | done].
Qed.

Lemma class_removal_follows_canonical_method_witness :
  SetBreakpoint rt0 env0 0x2080 0 = Some (OK, env1)
  ∧ GetDeclaringClass rt0 (DecodeArtMethod rt0 0x2080) = 0x7100
  ∧ (∃ env2,
        RemoveBreakpointsInClass rt0 env1 0x7100 = Some env2
        ∧ (identity rt0 0x2080 0 ∈ breakpoints env2
           ↔ GetDeclaringClass rt0
               (GetCanonicalMethod rt0 (DecodeArtMethod rt0 0x2080))
             ≠ 0x7100)).
Proof.
  assert (Hcall : SetBreakpoint rt0 env0 0x2080 0 = Some (OK, env1))
    by (vm_compute; reflexivity).
  split; [exact Hcall|]. split; [reflexivity|].
  apply (class_removal_follows_canonical_method rt0 env0 0x2080 0 env1 0x7100
           Hcall).
Defined.

(** ** Composition of the calls *)

(** X10. In a reachable registry a successful [ClearBreakpoint] is undone by
    [SetBreakpoint] of the same method and location, which succeeds and gives
    back the registry of before. *)
Theorem ClearBreakpoint_SetBreakpoint_roundtrip rt env method location env1 :
  reachable rt env →
  ClearBreakpoint rt env method location = Some (OK, env1) →
  SetBreakpoint rt env1 method location = Some (OK, env).
Proof.
  intros Hreach Hcall. apply ClearBreakpoint_inv in Hcall
    as [(? & _) | [(? & _) | (_ & -> & Hm & Hin)]]; try done.
  rewrite SetBreakpoint_fresh; [|done|by apply (reachable_accepted rt env)|].
  - simpl. destruct env as [s]. simpl in *. do 3 f_equal.
    apply set_eq. intros b. rewrite elem_of_union, elem_of_singleton,
      elem_of_erase.
    destruct (decide (b = identity rt method location)) as [->|]; tauto.
  - simpl. rewrite elem_of_erase. tauto.
Qed.

Lemma ClearBreakpoint_SetBreakpoint_roundtrip_witness :
  reachable rt0 env1
  ∧ ClearBreakpoint rt0 env1 0x1000 0 = Some (OK, env0)
  ∧ SetBreakpoint rt0 env0 0x1000 0 = Some (OK, env1).
Proof.
  assert (Hcall : ClearBreakpoint rt0 env1 0x1000 0 = Some (OK, env0))
    by (vm_compute; reflexivity).
  split; [apply reachable_env1|]. split; [exact Hcall|].
  apply (ClearBreakpoint_SetBreakpoint_roundtrip rt0 env1 0x1000 0 env0
           reachable_env1 Hcall).
Defined.

(** X11. Two successful [SetBreakpoint] calls can be made in the other order:
    both succeed again and the registry reached is the same. *)
Theorem SetBreakpoint_order rt env a la b lb e1 e12 :
  SetBreakpoint rt env a la = Some (OK, e1) →
  SetBreakpoint rt e1 b lb = Some (OK, e12) →
  ∃ e2, SetBreakpoint rt env b lb = Some (OK, e2)
        ∧ SetBreakpoint rt e2 a la = Some (OK, e12).
Proof.
  intros H1 H2.
  apply SetBreakpoint_inv in H1
    as [(? & _) | [(? & _) | [(? & _) | (_ & -> & Ha & Hacc_a & Hin_a)]]];
    try done.
  apply SetBreakpoint_inv in H2
    as [(? & _) | [(? & _) | [(? & _) | (_ & -> & Hb & Hacc_b & Hin_b)]]];
    try done.
  simpl in Hin_b. apply not_elem_of_union in Hin_b as [Hne Hin_b].
  apply not_elem_of_singleton in Hne.
  eexists. split; [by apply SetBreakpoint_fresh|].
  rewrite SetBreakpoint_fresh; [|done|done|simpl; set_solver].
  simpl. do 3 f_equal. set_solver.
Qed.

Lemma SetBreakpoint_order_witness :
  SetBreakpoint rt0 env0 0x1000 0 = Some (OK, env1)
  ∧ SetBreakpoint rt0 env1 0x2000 3
    = Some (OK, mkEnv {[ mkBreakpoint 0x2000 3; mkBreakpoint 0x1000 0 ]})
  ∧ (∃ e2, SetBreakpoint rt0 env0 0x2000 3 = Some (OK, e2)
           ∧ SetBreakpoint rt0 e2 0x1000 0
             = Some (OK, mkEnv {[ mkBreakpoint 0x2000 3;
                                  mkBreakpoint 0x1000 0 ]})).
Proof.
  assert (H1 : SetBreakpoint rt0 env0 0x1000 0 = Some (OK, env1))
    by (vm_compute; reflexivity).
  assert (H2 : SetBreakpoint rt0 env1 0x2000 3
    = Some (OK, mkEnv {[ mkBreakpoint 0x2000 3; mkBreakpoint 0x1000 0 ]}))
    by (vm_compute; reflexivity).
  split; [exact H1|]. split; [exact H2|].
  apply (SetBreakpoint_order rt0 env0 0x1000 0 0x2000 3 _ _ H1 H2).
Defined.

(** ** The hash *)

Lemma lxor_cancel_l a b c : Z.lxor a b = Z.lxor a c → b = c.
Proof.
  intros H.
  rewrite <- (Z.lxor_0_l b), <- (Z.lxor_0_l c), <- (Z.lxor_nilpotent a).
  rewrite !Z.lxor_assoc. by rewrite H.
Qed.

Lemma lxor_below_pow2 n a b :
  0 ≤ n → 0 ≤ a < 2 ^ n → 0 ≤ b < 2 ^ n → 0 ≤ Z.lxor a b < 2 ^ n.
Proof.
  intros Hn Ha Hb.
  assert (Hnn : 0 ≤ Z.lxor a b) by (apply Z.lxor_nonneg; lia).
  split; [done|].
  destruct (decide (Z.lxor a b = 0)) as [->|Hz]; [lia|].
  destruct (decide (n = 0)) as [->|Hn0].
  { assert (a = 0) as -> by lia. assert (b = 0) as -> by lia. done. }
  assert (Hlog : ∀ x, 0 ≤ x < 2 ^ n → Z.log2 x < n).
  { intros x Hx. destruct (decide (x = 0)) as [->|]; [simpl; lia|].
    apply Z.log2_lt_pow2; lia. }
  apply Z.log2_lt_pow2; [lia|].
  pose proof (Z.log2_lxor a b ltac:(lia) ltac:(lia)).
  pose proof (Hlog a Ha). pose proof (Hlog b Hb). lia.
Qed.

(** X12. When the two standard hash functions return values of [size_t], so
    does [Breakpoint::hash]: the exclusive or of two 64-bit values has 64
    bits. *)
Theorem hash_is_size_t (hash_uintptr_t hash_jlocation : Z → Z) b :
  (∀ x, 0 ≤ hash_uintptr_t x < 2 ^ 64) →
  (∀ x, 0 ≤ hash_jlocation x < 2 ^ 64) →
  0 ≤ hash hash_uintptr_t hash_jlocation b < 2 ^ 64.
Proof.
  intros Hu Hl. unfold hash. by apply lxor_below_pow2.
Qed.

Lemma std_hash_lp64_range x : 0 ≤ std_hash_lp64 x < 2 ^ 64.
Proof. unfold std_hash_lp64, static_cast_size_t. apply Z.mod_pos_bound. lia. Defined.

Lemma hash_is_size_t_witness :
  0 ≤ hash std_hash_lp64 std_hash_lp64 (mkBreakpoint 0x1000 (-1)) < 2 ^ 64.
Proof.
  apply (hash_is_size_t std_hash_lp64 std_hash_lp64 (mkBreakpoint 0x1000 (-1))
           std_hash_lp64_range std_hash_lp64_range).
Defined.

(** X13. With the standard hash of 64-bit integers, two breakpoints of one
    method at different locations have different hashes: within a method the
    hash does not collide. *)
Theorem hash_lp64_injective_in_location method l1 l2 :
  jlong_range l1 → jlong_range l2 →
  hash std_hash_lp64 std_hash_lp64 (mkBreakpoint method l1)
  = hash std_hash_lp64 std_hash_lp64 (mkBreakpoint method l2) →
  l1 = l2.
Proof.
  unfold jlong_range, hash, std_hash_lp64, static_cast_size_t. simpl.
  intros H1 H2 Heq. apply lxor_cancel_l in Heq.
  assert (Hd : (l1 - l2) mod 2 ^ 64 = 0).
  { rewrite Zminus_mod, Heq, Z.sub_diag. reflexivity. }
  apply Z.mod_divide in Hd; [|lia]. destruct Hd as [k Hk]. lia.
Qed.

Lemma hash_lp64_injective_in_location_witness :
  jlong_range (-1) ∧ jlong_range (-1)
  ∧ hash std_hash_lp64 std_hash_lp64 (mkBreakpoint 0x1000 (-1))
    = hash std_hash_lp64 std_hash_lp64 (mkBreakpoint 0x1000 (-1))
  ∧ -1 = -1.
Proof.
  assert (Hr : jlong_range (-1)) by (unfold jlong_range; lia).
  split; [exact Hr|]. split; [exact Hr|]. split; [reflexivity|].
  apply (hash_lp64_injective_in_location 0x1000 (-1) (-1) Hr Hr).
  reflexivity.
Defined.

(** * Properties of the configuration of the method log *)

(** ** Strings and trimCpy *)

Section trimCpy_facts.
Context (isspace : ascii → bool).

Lemma trimmed_NUL src : trimmed isspace (NUL :: src) = [].
Proof. reflexivity. Qed.

Lemma trimmed_space c src :
  c ≠ NUL → isspace c = true → trimmed isspace (c :: src) = trimmed isspace src.
Proof.
  intros Hc Hs. unfold trimmed. simpl. rewrite decide_False by done.
  rewrite filter_cons_False; [done|]. by rewrite Hs.
Qed.

Lemma trimmed_other c src :
  c ≠ NUL → isspace c = false → trimmed isspace (c :: src) = c :: trimmed isspace src.
Proof.
  intros Hc Hs. unfold trimmed. simpl. rewrite decide_False by done.
  by rewrite filter_cons_True.
Qed.

Lemma trimCpy_loop_spec dest q p :
  (q ≤ length dest)%nat →
  trimCpy_loop isspace dest q p
  = if decide (NUL ∈ p ∧ (q + length (trimmed isspace p) ≤ length dest)%nat)
    then Some (take q dest ++ trimmed isspace p
                 ++ drop (q + length (trimmed isspace p)) dest)
    else None.
Proof.
  revert dest q. induction p as [|c p IH]; intros dest q Hq;
    cbn [trimCpy_loop].
  { rewrite decide_False; [done|]. intros [H _]. by apply elem_of_nil in H. }
  destruct (decide (c = NUL)) as [->|Hc].
  { rewrite trimmed_NUL. cbn [length app]. rewrite Nat.add_0_r.
    rewrite decide_True by (split; [left | done]).
    by rewrite take_drop. }
  assert (Hin : NUL ∈ c :: p ↔ NUL ∈ p).
  { rewrite elem_of_cons. split; [intros [?|?]; [congruence | done] | auto]. }
  destruct (isspace c) eqn:Hs.
  { rewrite IH by done. rewrite trimmed_space by done.
    repeat case_decide; try done; exfalso; tauto. }
  rewrite trimmed_other by done. cbn [length].
  destruct (decide (q < length dest)%nat) as [Hlt|Hge].
  - rewrite IH by (rewrite length_insert; lia). rewrite length_insert.
    replace (q + S (length (trimmed isspace p)))%nat
      with (S q + length (trimmed isspace p))%nat by lia.
    repeat case_decide; try done; try (exfalso; tauto).
    all: f_equal; rewrite drop_insert_lt by lia;
      rewrite (take_S_r _ _ c) by (apply list_lookup_insert_eq; lia);
      rewrite take_insert_ge by lia; by rewrite <- app_assoc.
  - rewrite decide_False; [done|]. intros [_ ?]. lia.
Qed.

Lemma until_NUL_no_NUL buf : NUL ∉ until_NUL buf.
Proof.
  induction buf as [|c buf IH]; simpl; [apply not_elem_of_nil|].
  destruct (decide (c = NUL)); [apply not_elem_of_nil|].
  apply not_elem_of_cons. split; [congruence | done].
Qed.

Lemma trimmed_no_NUL src : NUL ∉ trimmed isspace src.
Proof.
  unfold trimmed. intros [_ H]%list_elem_of_filter.
  by apply until_NUL_no_NUL in H.
Qed.

Lemma until_NUL_app s rest :
  NUL ∉ s → until_NUL (s ++ NUL :: rest) = s.
Proof.
  induction s as [|c s IH]; intros Hs; simpl.
  - done.
  - apply not_elem_of_cons in Hs as [Hc Hs].
    rewrite decide_False by congruence. by rewrite IH.
Qed.

Lemma trimmed_closed s rest :
  trimmed isspace (until_NUL s ++ NUL :: rest) = trimmed isspace s.
Proof.
  unfold trimmed. by rewrite until_NUL_app by apply until_NUL_no_NUL.
Qed.

Lemma c_str_app s mem :
  NUL ∉ s →
  c_str (s ++ mem) = match c_str mem with
                     | Some r => Some (s ++ r)
                     | None => None
                     end.
Proof.
  induction s as [|c s IH]; intros Hs; simpl.
  - by destruct (c_str mem).
  - apply not_elem_of_cons in Hs as [Hc Hs].
    rewrite decide_False by congruence. rewrite IH by done.
    by destruct (c_str mem).
Qed.

Lemma trimCpy_spec dest src :
  trimCpy isspace dest src
  = if decide (NUL ∈ src ∧ (length (trimmed isspace src) ≤ length dest)%nat)
    then Some (trimmed isspace src ++ drop (length (trimmed isspace src)) dest)
    else None.
Proof.
  unfold trimCpy. rewrite trimCpy_loop_spec by lia. done.
Qed.
End trimCpy_facts.


Ltac by_evaluation := apply (bool_decide_unpack _); vm_compute; exact I.

Lemma until_NUL_prefix s v :
  NUL ∉ s → until_NUL (s ++ v) = s ++ until_NUL v.
Proof.
  induction s as [|c s IH]; intros Hs; [done|].
  apply not_elem_of_cons in Hs as [Hc Hs]. cbn [app until_NUL].
  rewrite decide_False by congruence. by rewrite IH.
Qed.

Lemma strchr_first key c rest :
  c ∉ key → strchr (key ++ c :: rest) c = Some (key, rest).
Proof.
  induction key as [|x key IH]; intros Hk; cbn [app strchr].
  - by rewrite decide_True.
  - apply not_elem_of_cons in Hk as [Hc Hk].
    rewrite decide_False by congruence. by rewrite IH.
Qed.

Lemma strchr_None s c : strchr s c = None ↔ c ∉ s.
Proof.
  induction s as [|x s IH]; cbn [strchr].
  - split; [intros _; apply not_elem_of_nil | done].
  - destruct (decide (x = c)) as [->|Hx].
    + split; [done | intros H; exfalso; apply H; left].
    + rewrite not_elem_of_cons. destruct (strchr s c) as [[k v]|].
      * split; [done | intros [_ H]; by apply IH in H].
      * split; [intros _; split; [congruence | by apply IH] | done].
Qed.

Lemma hd_until_NUL v : hd NUL (until_NUL v) = hd NUL v.
Proof.
  destruct v as [|c v]; [done|]. cbn [until_NUL hd].
  by destruct (decide (c = NUL)).
Qed.

Lemma strcmp_is_0_true key lit :
  key = list_ascii_of_string lit → strcmp_is_0 key lit = true.
Proof. intros ->. by apply bool_decide_eq_true_2. Qed.

Lemma strcmp_is_0_false key lit :
  key ≠ list_ascii_of_string lit → strcmp_is_0 key lit = false.
Proof. intros H. by apply bool_decide_eq_false_2. Qed.

Section init_facts.
Context (isspace : ascii → bool) (atoi : list ascii → Z).

(** A buffer that starts with a key and "=": the body of the loop gets the
    key and the rest of the string as the value. *)
Lemma init_line_key_value key v :
  NUL ∉ key → "="%char ∉ key → hd NUL (key ++ ["="%char]) ≠ "#"%char →
  strchr (until_NUL (key ++ "="%char :: v)) "="%char
  = Some (key, until_NUL v)
  ∧ hd NUL (key ++ "="%char :: v) ≠ "#"%char.
Proof.
  intros Hnul Heq Hhash. split.
  - rewrite until_NUL_prefix by done. cbn [until_NUL].
    rewrite decide_False by done. by apply strchr_first.
  - by destruct key.
Qed.

(** A "pkgName=" line is the call of [trimCpy] on [sPkgName] with the
    value. *)
Lemma init_line_pkgName_trimCpy suid v cfg :
  init_line isspace atoi suid (list_ascii_of_string "pkgName=" ++ v) cfg
  = match trimCpy isspace (sPkgName cfg) (until_NUL v ++ [NUL]) with
    | Some name => Some (mkConfig (smethodlogUid cfg) (sUseDexDump cfg) name
                           (Config_hackDir cfg))
    | None => None
    end.
Proof.
  change (list_ascii_of_string "pkgName=" ++ v)
    with (list_ascii_of_string "pkgName" ++ "="%char :: v).
  destruct (init_line_key_value (list_ascii_of_string "pkgName") v)
    as [Hsplit Hhash]; [by_evaluation..|].
  unfold init_line. rewrite decide_False by done. rewrite Hsplit.
  rewrite (strcmp_is_0_false _ "useDexDump") by discriminate.
  rewrite (strcmp_is_0_false _ "methodLogUid") by discriminate.
  by rewrite (strcmp_is_0_true _ "pkgName") by done.
Qed.

(** The same line when the value fits the array. *)
Lemma init_line_pkgName_fits suid v cfg :
  (length (trimmed isspace v) ≤ length (sPkgName cfg))%nat →
  init_line isspace atoi suid (list_ascii_of_string "pkgName=" ++ v) cfg
  = Some (mkConfig (smethodlogUid cfg) (sUseDexDump cfg)
            (trimmed isspace v
               ++ drop (length (trimmed isspace v)) (sPkgName cfg))
            (Config_hackDir cfg)).
Proof.
  intros Hfit. rewrite init_line_pkgName_trimCpy, trimCpy_spec, trimmed_closed.
  rewrite decide_True; [done|]. split; [|done].
  apply elem_of_app. right. left.
Qed.
End init_facts.

(** ** fgets *)

Lemma fgets_read_app room f :
  (fgets_read room f).1 ++ (fgets_read room f).2 = f.
Proof.
  revert f. induction room as [|room IH]; intros [|c f]; cbn [fgets_read];
    try done.
  destruct (decide (c = LF)); [done|]. cbn [fst snd app]. by rewrite IH.
Qed.

Lemma fgets_read_length room f : (length (fgets_read room f).1 ≤ room)%nat.
Proof.
  revert f. induction room as [|room IH]; intros [|c f]; cbn [fgets_read];
    try (cbn; lia).
  destruct (decide (c = LF)); [cbn; lia|]. cbn [fst length].
  specialize (IH f). lia.
Qed.

Lemma fgets_read_shape room f :
  (∃ pre, (fgets_read room f).1 = pre ++ [LF] ∧ LF ∉ pre)
  ∨ ((LF ∉ (fgets_read room f).1)
     ∧ (length (fgets_read room f).1 = room ∨ (fgets_read room f).2 = [])).
Proof.
  revert f. induction room as [|room IH]; intros [|c f]; cbn [fgets_read].
  - right. split; [apply not_elem_of_nil | by left].
  - right. split; [apply not_elem_of_nil | by left].
  - right. split; [apply not_elem_of_nil | by right].
  - destruct (decide (c = LF)) as [->|Hc].
    + left. exists []. split; [done | apply not_elem_of_nil].
    + cbn [fst snd]. destruct (IH f) as [(pre & -> & Hpre)|[Hno Hend]].
      * left. exists (c :: pre). split; [done|].
        apply not_elem_of_cons. split; [congruence | done].
      * right. split.
        -- apply not_elem_of_cons. split; [congruence | done].
        -- cbn [length]. destruct Hend; [left; lia | by right].
Qed.

Lemma fgets_read_nonempty room c f : (fgets_read (S room) (c :: f)).1 ≠ [].
Proof. cbn [fgets_read]. by destruct (decide (c = LF)). Qed.

(** A run of [room] characters without newline is one result of [fgets]. *)
Lemma fgets_read_full pad rest :
  LF ∉ pad → fgets_read (length pad) (pad ++ rest) = (pad, rest).
Proof.
  induction pad as [|c pad IH]; intros Hpad; cbn [length app fgets_read].
  - by destruct rest.
  - apply not_elem_of_cons in Hpad as [Hc Hpad].
    rewrite decide_False by congruence. by rewrite IH.
Qed.

Lemma fgets_Some size f buf f' :
  fgets (S (S size)) f = Some (buf, f') →
  buf ≠ [] ∧ buf ++ f' = f ∧ (length buf ≤ S size)%nat
  ∧ ((∃ pre, buf = pre ++ [LF] ∧ LF ∉ pre)
     ∨ ((LF ∉ buf) ∧ (length buf = S size ∨ f' = []))).
Proof.
  destruct f as [|c f]; [done|]. unfold fgets.
  replace (S (S size) - 1)%nat with (S size) by lia.
  pose proof (fgets_read_app (S size) (c :: f)) as Happ.
  pose proof (fgets_read_length (S size) (c :: f)) as Hlen.
  pose proof (fgets_read_shape (S size) (c :: f)) as Hshape.
  pose proof (fgets_read_nonempty size c f) as Hne.
  destruct (fgets_read (S size) (c :: f)) as [b r]. cbn [fst snd] in *.
  intros H. injection H as <- <-. done.
Qed.

Lemma fgets_shrinks f buf f' :
  fgets 500 f = Some (buf, f') → (length f' < length f)%nat.
Proof.
  intros H. apply (fgets_Some 498) in H as (Hne & <- & _).
  rewrite length_app. destruct buf; [done|]. cbn [length]. lia.
Qed.

(** ** The loop of init *)

Section loop_facts.
Context (isspace : ascii → bool) (atoi : list ascii → Z).

(** The loop has fuel to spare from the length of the file on. *)
Lemma init_loop_fuel stack fuel fuel' i f cfg :
  (length f ≤ fuel)%nat → (length f ≤ fuel')%nat →
  init_loop isspace atoi stack fuel i f cfg
  = init_loop isspace atoi stack fuel' i f cfg.
Proof.
  revert fuel' i f cfg. induction fuel as [|fuel IH];
    intros fuel' i f cfg Hf Hf'.
  - destruct f; [|cbn in Hf; lia]. by destruct fuel'.
  - destruct fuel' as [|fuel'].
    { destruct f; [done | cbn in Hf'; lia]. }
    cbn [init_loop]. destruct (fgets 500 f) as [[buf f']|] eqn:Hg; [|done].
    apply fgets_shrinks in Hg.
    destruct (init_line _ _ _ _ _) as [cfg'|]; [|done].
    apply IH; lia.
Qed.


End loop_facts.

Section trimCpy_properties.
Context (isspace : ascii → bool).


(** X15. [trimCpy] writes no terminating NUL: the string that the
    destination holds afterwards is the copied characters followed by the
    string that the destination already held behind them. *)
Theorem trimCpy_leaves_string_open dest src dest' :
  trimCpy isspace dest src = Some dest' →
  length dest' = length dest
  ∧ c_str dest'
    = match c_str (drop (length (trimmed isspace src)) dest) with
      | Some s => Some (trimmed isspace src ++ s)
      | None => None
      end.
Proof.
  rewrite trimCpy_spec. case_decide as Hfit; [|done].
  destruct Hfit as [_ Hfit]. intros [= <-]. split.
  - rewrite length_app, length_drop. lia.
  - apply c_str_app, trimmed_no_NUL.
Qed.
End trimCpy_properties.

Example trimCpy_example :
  trimCpy isspace_C (list_ascii_of_string "XXXXXXXX")
          (list_ascii_of_string " a b" ++ [LF; NUL])
  = Some (list_ascii_of_string "abXXXXXX").
Proof. vm_compute. reflexivity. Qed.

Lemma trimCpy_leaves_string_open_witness :
  trimCpy isspace_C (list_ascii_of_string "XXXX" ++ [NUL])
          (list_ascii_of_string " a b" ++ [LF; NUL])
  = Some (list_ascii_of_string "abXX" ++ [NUL])
  ∧ c_str (list_ascii_of_string "abXX" ++ [NUL])
    = Some (list_ascii_of_string "abXX").
Proof.
  assert (Hcall :
    trimCpy isspace_C (list_ascii_of_string "XXXX" ++ [NUL])
            (list_ascii_of_string " a b" ++ [LF; NUL])
    = Some (list_ascii_of_string "abXX" ++ [NUL]))
    by (vm_compute; reflexivity).
  split; [exact Hcall|].
  apply (trimCpy_leaves_string_open isspace_C _ _ _ Hcall).
Defined.

(** [fgets] returns [NULL] exactly at the end of the file.  Otherwise it
    takes a non-empty start of the file of at most [size - 1] characters,
    which either ends with the first newline of the file, or holds no newline
    and fills the buffer or reaches the end of the file. *)
Lemma fgets_result size f :
  (fgets (S (S size)) f = None ↔ f = [])
  ∧ (∀ buf f',
        fgets (S (S size)) f = Some (buf, f') →
        buf ≠ [] ∧ buf ++ f' = f ∧ (length buf ≤ S size)%nat
        ∧ ((∃ pre, buf = pre ++ [LF] ∧ LF ∉ pre)
           ∨ ((LF ∉ buf) ∧ (length buf = S size ∨ f' = [])))).
Proof.
  split; [by destruct f | apply fgets_Some].
Qed.

Section line_properties.
Context (isspace : ascii → bool) (atoi : list ascii → Z).

Lemma init_line_comment suid buf cfg :
  hd NUL buf = "#"%char → init_line isspace atoi suid buf cfg = Some cfg.
Proof. intros Hhash. unfold init_line. by rewrite decide_True. Qed.

(** X16. The body of the loop leaves the configuration as it is for a buffer
    that starts with '#', for one whose string holds no '=', and for one
    whose text before the first '=' is not exactly one of the three keys. *)
Theorem init_line_ignored suid buf cfg :
  hd NUL buf = "#"%char
  ∨ "="%char ∉ until_NUL buf
  ∨ (∃ key val,
        strchr (until_NUL buf) "="%char = Some (key, val)
        ∧ key ≠ list_ascii_of_string "useDexDump"
        ∧ key ≠ list_ascii_of_string "methodLogUid"
        ∧ key ≠ list_ascii_of_string "pkgName") →
  init_line isspace atoi suid buf cfg = Some cfg.
Proof.
  unfold init_line. intros [Hhash|[Hno|(key & val & Hsplit & H1 & H2 & H3)]].
  - by rewrite decide_True.
  - destruct (decide _); [done|].
    by rewrite (proj2 (strchr_None _ _) Hno).
  - destruct (decide _); [done|]. rewrite Hsplit.
    rewrite !strcmp_is_0_false by done. done.
Qed.

(** X17. A line that starts with "useDexDump=" sets [sUseDexDump] from the
    one character behind the '=': false when it is '0', true otherwise, also
    when it is a space, the newline or the end of the string.  Nothing else
    of the configuration changes. *)
Theorem init_line_sets_useDexDump suid v cfg :
  init_line isspace atoi suid (list_ascii_of_string "useDexDump=" ++ v) cfg
  = Some (mkConfig (smethodlogUid cfg)
                   (negb (bool_decide (hd NUL v = "0"%char)))
                   (sPkgName cfg) (Config_hackDir cfg)).
Proof.
  change (list_ascii_of_string "useDexDump=" ++ v)
    with (list_ascii_of_string "useDexDump" ++ "="%char :: v).
  destruct (init_line_key_value (list_ascii_of_string "useDexDump") v)
    as [Hsplit Hhash]; [by_evaluation..|].
  unfold init_line. rewrite decide_False by done. rewrite Hsplit.
  rewrite (strcmp_is_0_true _ "useDexDump") by done.
  rewrite (strcmp_is_0_false _ "methodLogUid") by discriminate.
  rewrite (strcmp_is_0_false _ "pkgName") by discriminate.
  by rewrite hd_until_NUL.
Qed.

(** X18. A line that starts with "pkgName=" copies the characters of the
    value that are not white space over the start of [sPkgName] and leaves
    the rest of the array as it was; the call has no defined result when
    there are more of them than the array has elements. *)
Theorem init_line_sets_pkgName suid v cfg :
  init_line isspace atoi suid (list_ascii_of_string "pkgName=" ++ v) cfg
  = if decide (length (trimmed isspace v) ≤ length (sPkgName cfg))%nat
    then Some (mkConfig (smethodlogUid cfg) (sUseDexDump cfg)
                 (trimmed isspace v
                    ++ drop (length (trimmed isspace v)) (sPkgName cfg))
                 (Config_hackDir cfg))
    else None.
Proof.
  rewrite init_line_pkgName_trimCpy, trimCpy_spec, trimmed_closed.
  assert (NUL ∈ until_NUL v ++ [NUL]) by (apply elem_of_app; right; left).
  repeat case_decide; try done; exfalso; tauto.
Qed.

(** X19. A line that starts with "methodLogUid=" sets [smethodlogUid] to
    [atoi] of a string that begins with the characters of the value that are
    not white space and goes on with what the array [suid] held behind them,
    up to its first NUL; there is no defined result when the value does not
    fit the array or the array holds no NUL behind it. *)
Theorem init_line_sets_methodLogUid suid v cfg :
  init_line isspace atoi suid (list_ascii_of_string "methodLogUid=" ++ v) cfg
  = if decide (length (trimmed isspace v) ≤ length suid)%nat
    then match c_str (drop (length (trimmed isspace v)) suid) with
         | Some s => Some (mkConfig (atoi (trimmed isspace v ++ s))
                             (sUseDexDump cfg) (sPkgName cfg)
                             (Config_hackDir cfg))
         | None => None
         end
    else None.
Proof.
  change (list_ascii_of_string "methodLogUid=" ++ v)
    with (list_ascii_of_string "methodLogUid" ++ "="%char :: v).
  destruct (init_line_key_value (list_ascii_of_string "methodLogUid") v)
    as [Hsplit Hhash]; [by_evaluation..|].
  unfold init_line. rewrite decide_False by done. rewrite Hsplit.
  rewrite (strcmp_is_0_false _ "useDexDump") by discriminate.
  rewrite (strcmp_is_0_true _ "methodLogUid") by done.
  rewrite (strcmp_is_0_false _ "pkgName") by discriminate.
  rewrite trimCpy_spec, trimmed_closed.
  assert (NUL ∈ until_NUL v ++ [NUL]) by (apply elem_of_app; right; left).
  destruct cfg as [uid dex pkg dir]. cbn [sPkgName smethodlogUid sUseDexDump Config_hackDir].
  repeat case_decide; try done; try (exfalso; tauto).
  all: rewrite c_str_app by apply trimmed_no_NUL; by destruct (c_str _).
Qed.

Lemma c_str_zeros n : c_str (replicate (S n) NUL) = Some [].
Proof. reflexivity. Qed.

(** X20. On the zero-initialised [sPkgName], a first "pkgName=" line whose
    value has fewer than 256 characters that are not white space leaves
    these characters as the string of the array.  A second such line with a
    shorter value leaves its characters followed by the tail of the first
    value, since no NUL is written behind them. *)
Theorem pkgName_twice_keeps_tail suid1 suid2 v1 v2 cfg :
  sPkgName cfg = replicate 256 NUL →
  (length (trimmed isspace v2) ≤ length (trimmed isspace v1))%nat →
  (length (trimmed isspace v1) < 256)%nat →
  ∃ cfg1 cfg2,
    init_line isspace atoi suid1 (list_ascii_of_string "pkgName=" ++ v1) cfg
    = Some cfg1
    ∧ c_str (sPkgName cfg1) = Some (trimmed isspace v1)
    ∧ init_line isspace atoi suid2
        (list_ascii_of_string "pkgName=" ++ v2) cfg1
      = Some cfg2
    ∧ c_str (sPkgName cfg2)
      = Some (trimmed isspace v2
                ++ drop (length (trimmed isspace v2)) (trimmed isspace v1)).
Proof.
  intros Hzero H21 H1.
  set (t1 := trimmed isspace v1) in *. set (t2 := trimmed isspace v2) in *.
  assert (Hrest : ∃ k, drop (length t1) (replicate 256 NUL)
                       = replicate (S k) NUL).
  { exists (255 - length t1)%nat. rewrite drop_replicate. f_equal. lia. }
  destruct Hrest as [k Hrest].
  eexists _, _.
  rewrite init_line_pkgName_fits
    by (fold t1; rewrite Hzero, length_replicate; lia).
  fold t1.
  split; [done|]. cbn [sPkgName]. rewrite Hzero, Hrest. split.
  { rewrite c_str_app by apply trimmed_no_NUL. by rewrite c_str_zeros, app_nil_r. }
  rewrite init_line_pkgName_fits
    by (fold t2; cbn [sPkgName]; rewrite length_app; lia).
  fold t2.
  split; [done|]. cbn [sPkgName].
  rewrite drop_app_le by done.
  rewrite c_str_app by apply trimmed_no_NUL.
  rewrite c_str_app.
  - by rewrite c_str_zeros, app_nil_r.
  - intros Hin. apply (subseteq_drop _ _ NUL) in Hin.
    by apply (trimmed_no_NUL isspace) in Hin.
Qed.
End line_properties.

(** The array [suid] is not initialised and [trimCpy] does not close the
    string: with "999" left in the array, the line "methodLogUid=10" gives
    109. *)
Example methodLogUid_reads_stale_digits :
  init_line isspace_C atoi_C (list_ascii_of_string "999" ++ [NUL])
    (list_ascii_of_string "methodLogUid=10" ++ [LF]) s_cfg
  = Some (mkConfig 109 false (sPkgName s_cfg) (Config_hackDir s_cfg)).
Proof. vm_compute. reflexivity. Qed.

Lemma init_line_ignored_witness :
  (hd NUL (list_ascii_of_string " pkgName=x") = "#"%char
   ∨ "="%char ∉ until_NUL (list_ascii_of_string " pkgName=x")
   ∨ (∃ key val,
         strchr (until_NUL (list_ascii_of_string " pkgName=x")) "="%char
         = Some (key, val)
         ∧ key ≠ list_ascii_of_string "useDexDump"
         ∧ key ≠ list_ascii_of_string "methodLogUid"
         ∧ key ≠ list_ascii_of_string "pkgName"))
  ∧ init_line isspace_C atoi_C [] (list_ascii_of_string " pkgName=x") s_cfg
    = Some s_cfg.
Proof.
  assert (H : hd NUL (list_ascii_of_string " pkgName=x") = "#"%char
   ∨ "="%char ∉ until_NUL (list_ascii_of_string " pkgName=x")
   ∨ (∃ key val,
         strchr (until_NUL (list_ascii_of_string " pkgName=x")) "="%char
         = Some (key, val)
         ∧ key ≠ list_ascii_of_string "useDexDump"
         ∧ key ≠ list_ascii_of_string "methodLogUid"
         ∧ key ≠ list_ascii_of_string "pkgName")).
  { right; right. exists (list_ascii_of_string " pkgName"),
      (list_ascii_of_string "x").
    split; [vm_compute; reflexivity|]. repeat split; discriminate. }
  split; [exact H|].
  apply (init_line_ignored isspace_C atoi_C [] _ s_cfg H).
Defined.

Lemma pkgName_twice_keeps_tail_witness :
  sPkgName s_cfg = replicate 256 NUL
  ∧ (length (trimmed isspace_C (list_ascii_of_string "ab" ++ [LF]))
     ≤ length (trimmed isspace_C (list_ascii_of_string "com.example" ++ [LF])))%nat
  ∧ (length (trimmed isspace_C (list_ascii_of_string "com.example" ++ [LF]))
     < 256)%nat
  ∧ trimmed isspace_C (list_ascii_of_string "ab" ++ [LF])
      ++ drop (length (trimmed isspace_C (list_ascii_of_string "ab" ++ [LF])))
              (trimmed isspace_C (list_ascii_of_string "com.example" ++ [LF]))
    = list_ascii_of_string "abm.example"
  ∧ (∃ cfg1 cfg2,
        init_line isspace_C atoi_C []
          (list_ascii_of_string "pkgName=" ++ list_ascii_of_string "com.example" ++ [LF])
          s_cfg
        = Some cfg1
        ∧ c_str (sPkgName cfg1)
          = Some (trimmed isspace_C (list_ascii_of_string "com.example" ++ [LF]))
        ∧ init_line isspace_C atoi_C []
            (list_ascii_of_string "pkgName=" ++ list_ascii_of_string "ab" ++ [LF])
            cfg1
          = Some cfg2
        ∧ c_str (sPkgName cfg2)
          = Some (trimmed isspace_C (list_ascii_of_string "ab" ++ [LF])
                    ++ drop (length (trimmed isspace_C
                                       (list_ascii_of_string "ab" ++ [LF])))
                            (trimmed isspace_C
                               (list_ascii_of_string "com.example" ++ [LF])))).
Proof.
  split; [reflexivity|]. split; [vm_compute; lia|]. split; [vm_compute; lia|].
  split; [vm_compute; reflexivity|].
  apply (pkgName_twice_keeps_tail isspace_C atoi_C [] []
           (list_ascii_of_string "com.example" ++ [LF])
           (list_ascii_of_string "ab" ++ [LF]) s_cfg);
    [reflexivity | vm_compute; lia | vm_compute; lia].
Defined.

(** ** The whole of init *)

Lemma strcpy_hackDir :
  strcpy (Config_hackDir s_cfg) (list_ascii_of_string hackDir)
  = Some (list_ascii_of_string hackDir ++ replicate 236 NUL).
Proof. vm_compute. reflexivity. Qed.

Section init_properties.
Context (isspace : ascii → bool) (atoi : list ascii → Z).

Lemma init_loop_shift stack fuel i f cfg :
  init_loop isspace atoi stack fuel (S i) f cfg
  = init_loop isspace atoi (λ j, stack (S j)) fuel i f cfg.
Proof.
  revert i f cfg. induction fuel as [|fuel IH]; intros i f cfg;
    cbn [init_loop]; [done|].
  destruct (fgets 500 f) as [[buf f']|]; [|done].
  destruct (init_line _ _ _ _ _); [apply IH | done].
Qed.


(** X22. A first line of 499 characters without newline fills the buffer of
    [fgets]; when it starts with '#' it is skipped, and what follows it in
    the file, the rest of the same line, is read as the next line. *)
Theorem long_comment_line_continues pad rest stack :
  length pad = 499%nat →
  LF ∉ pad →
  hd NUL pad = "#"%char →
  init isspace atoi (λ _, Some (pad ++ rest)) stack
  = init isspace atoi (λ _, Some rest) (λ i, stack (S i)).
Proof.
  intros Hlen Hlf Hhash. unfold init. rewrite strcpy_hackDir.
  set (cfg0 := mkConfig _ _ _ _).
  rewrite length_app, Hlen.
  change (499 + length rest)%nat with (S (498 + length rest)).
  cbn [init_loop].
  assert (Hget : fgets 500 (pad ++ rest) = Some (pad, rest)).
  { destruct pad as [|c pad]; [done|]. unfold fgets. cbn [app].
    change (c :: pad ++ rest) with ((c :: pad) ++ rest).
    replace (500 - 1)%nat with (length (c :: pad)) by (by rewrite Hlen).
    by rewrite fgets_read_full. }
  rewrite Hget.
  rewrite (init_line_comment isspace atoi _ pad cfg0) by done.
  rewrite init_loop_shift. apply init_loop_fuel; lia.
Qed.
End init_properties.

Lemma long_comment_line_continues_witness :
  length long_comment = 499%nat
  ∧ (LF ∉ long_comment)
  ∧ hd NUL long_comment = "#"%char
  ∧ init isspace_C atoi_C
      (λ _, Some (long_comment ++ list_ascii_of_string "pkgName=x")) (λ _, [])
    = init isspace_C atoi_C
        (λ _, Some (list_ascii_of_string "pkgName=x")) (λ _, []).
Proof.
  assert (Hlen : length long_comment = 499%nat) by (vm_compute; reflexivity).
  assert (Hlf : LF ∉ long_comment) by by_evaluation.
  split; [exact Hlen|]. split; [exact Hlf|]. split; [reflexivity|].
  apply (long_comment_line_continues isspace_C atoi_C long_comment
           (list_ascii_of_string "pkgName=x") (λ _, []) Hlen Hlf eq_refl).
Defined.

Example init_cfg_txt :
  ∃ cfg, init isspace_C atoi_C (λ _, Some cfg_txt) (λ _, []) = Some cfg
         ∧ smethodlogUid cfg = 10123
         ∧ sUseDexDump cfg = true
         ∧ c_str (sPkgName cfg)
           = Some (list_ascii_of_string "com.example.app").
Proof. eexists. vm_compute. repeat split; reflexivity. Qed.


(** ** hack_method_invoke *)

Lemma static_cast_int_eq x u :
  0 ≤ x < 2 ^ 32 → - 2 ^ 31 ≤ u < 2 ^ 31 →
  u = static_cast_int x ↔ x = u mod 2 ^ 32.
Proof.
  unfold static_cast_int. intros Hx Hu.
  pose proof (Z.mod_pos_bound (x + 2 ^ 31) (2 ^ 32) ltac:(lia)).
  pose proof (Z.mod_pos_bound u (2 ^ 32) ltac:(lia)).
  pose proof (Z.div_mod (x + 2 ^ 31) (2 ^ 32) ltac:(lia)).
  pose proof (Z.div_mod u (2 ^ 32) ltac:(lia)).
  split; intros ->; lia.
Qed.

(** X23. [hack_method_invoke] logs the method exactly when the 32 bits of the
    user identifier of the process are those of [smethodlogUid]: the
    identifier is compared after its cast to [int], so that identifiers from
    2^31 on match negative values; the line logged is the class descriptor,
    "->", the name and the signature. *)
Theorem hack_method_invoke_logs cfg getuid name sig clsDesc :
  0 ≤ getuid < 2 ^ 32 →
  - 2 ^ 31 ≤ smethodlogUid cfg < 2 ^ 31 →
  hack_method_invoke cfg getuid name sig clsDesc
  = if decide (getuid = smethodlogUid cfg mod 2 ^ 32)
    then Some (clsDesc ++ "->" ++ name ++ sig)%string
    else None.
Proof.
  intros Hx Hu. unfold hack_method_invoke, get_config.
  pose proof (static_cast_int_eq getuid (smethodlogUid cfg) Hx Hu).
  repeat case_decide; try done; exfalso; tauto.
Qed.

Lemma hack_method_invoke_logs_witness :
  0 ≤ 4294967295 < 2 ^ 32
  ∧ - 2 ^ 31 ≤ smethodlogUid (mkConfig (-1) false [] []) < 2 ^ 31
  ∧ hack_method_invoke (mkConfig (-1) false [] []) 4294967295
      "run" "()V" "Lcom/example/Main;"
    = Some "Lcom/example/Main;->run()V"%string.
Proof.
  split; [lia|]. split; [simpl; lia|].
  apply (hack_method_invoke_logs (mkConfig (-1) false [] []) 4294967295
           "run" "()V" "Lcom/example/Main;"); simpl; lia.
Defined.

Section no_file.
Context (isspace : ascii → bool) (atoi : list ascii → Z).

(** X24. When the file "/data/local/tmp/hack/cfg.txt" cannot be opened,
    [init] returns with [smethodlogUid] at -1, [sUseDexDump] false and an
    empty package name, and [hack_method_invoke] then logs nothing for any
    user identifier below 2^32 - 1. *)
Theorem init_without_file fopen stack :
  fopen "/data/local/tmp/hack/cfg.txt"%string = None →
  ∃ cfg,
    init isspace atoi fopen stack = Some cfg
    ∧ smethodlogUid cfg = -1
    ∧ sUseDexDump cfg = false
    ∧ c_str (sPkgName cfg) = Some []
    ∧ (∀ getuid name sig clsDesc,
          0 ≤ getuid < 2 ^ 32 - 1 →
          hack_method_invoke cfg getuid name sig clsDesc = None).
Proof.
  intros Hno. eexists. unfold init. rewrite strcpy_hackDir.
  change (hackDir ++ "/cfg.txt")%string with "/data/local/tmp/hack/cfg.txt"%string.
  rewrite Hno. split; [done|]. split; [done|]. split; [done|].
  split; [done|]. intros uid name sig cls Huid.
  unfold hack_method_invoke, get_config. cbn [smethodlogUid].
  rewrite decide_True; [done|].
  rewrite (static_cast_int_eq uid (-1)) by lia.
  change (-1 mod 2 ^ 32) with (2 ^ 32 - 1). lia.
Qed.
End no_file.

Lemma init_without_file_witness :
  (λ _ : string, @None (list ascii)) "/data/local/tmp/hack/cfg.txt"%string = None
  ∧ (∃ cfg,
        init isspace_C atoi_C (λ _, None) (λ _, []) = Some cfg
        ∧ smethodlogUid cfg = -1
        ∧ sUseDexDump cfg = false
        ∧ c_str (sPkgName cfg) = Some []
        ∧ (∀ getuid name sig clsDesc,
              0 ≤ getuid < 2 ^ 32 - 1 →
              hack_method_invoke cfg getuid name sig clsDesc = None)).
Proof.
  split; [reflexivity|].
  apply (init_without_file isspace_C atoi_C (λ _, None) (λ _, []) eq_refl).
Defined.
